(** * Answer extraction and scoring: a shallow embedding

    This development models the two modules [answer_extraction.py] and
    [answer_scoring.py] and states the properties of their natural-language
    description as theorems.

    Python values are modelled by [pyval] (None, integers, strings, tuples,
    lists); text is ASCII text; costs and budgets are integers.  A Python
    call either returns a value or raises: fallible code lives in [result].
    The regular expressions of the source are written in a small abstract
    syntax and run by a backtracking matcher that follows the matching
    order of Python's [re] module (leftmost match, greedy and lazy
    repetition, one capturing group). *)

From Stdlib Require Import ZArith Ascii String List Bool Lia.
From stdpp Require Import base strings gmap list.

Local Open Scope string_scope.
Local Open Scope Z_scope.

(** ** Exceptions and results *)

Inductive exn :=
| TypeError | ValueError | IndexError | KeyError
| AttributeError | SyntaxError | UnboundLocalError.

Inductive result (A : Type) :=
| Ok (a : A)
| Raise (e : exn).
Arguments Ok {A} a.
Arguments Raise {A} e.

Definition bind {A B : Type} (m : result A) (f : A -> result B) : result B :=
  match m with
  | Ok a => f a
  | Raise e => Raise e
  end.

Notation "'let*' x ':=' m 'in' k" := (bind m (fun x => k))
  (at level 10, x name, m at level 100, k at level 200).

Definition exn_eqb (a b : exn) : bool :=
  match a, b with
  | TypeError, TypeError | ValueError, ValueError | IndexError, IndexError
  | KeyError, KeyError | AttributeError, AttributeError
  | SyntaxError, SyntaxError | UnboundLocalError, UnboundLocalError => true
  | _, _ => false
  end.

(** [try: body / except e: handler]. *)
Definition try_except {A : Type} (body : result A) (e : exn) (handler : result A)
  : result A :=
  match body with
  | Ok a => Ok a
  | Raise e' => if exn_eqb e' e then handler else Raise e'
  end.

(** Reading a local variable that may not have been assigned yet. *)
Definition read_local {A : Type} (x : option A) : result A :=
  match x with
  | Some a => Ok a
  | None => Raise UnboundLocalError
  end.

(** ** Python values *)

#[warnings="-register-all"] Inductive pyval :=
| VNone
| VInt (z : Z)
| VStr (s : string)
| VTuple (l : list pyval)
| VList (l : list pyval).

(** [a == b] *)
Fixpoint py_eq (a b : pyval) {struct a} : bool :=
  let fix all2 (x y : list pyval) {struct x} : bool :=
    match x, y with
    | [], [] => true
    | a' :: x', b' :: y' => py_eq a' b' && all2 x' y'
    | _, _ => false
    end in
  match a, b with
  | VNone, VNone => true
  | VInt x, VInt y => Z.eqb x y
  | VStr x, VStr y => String.eqb x y
  | VTuple x, VTuple y => all2 x y
  | VList x, VList y => all2 x y
  | _, _ => false
  end.

(** Can the value be hashed (used as a dictionary key or set element)? *)
Fixpoint hashable (v : pyval) : bool :=
  match v with
  | VList _ => false
  | VTuple l => forallb hashable l
  | _ => true
  end.

(** Truth value of [v], as tested by [not v] and [if v]. *)
Definition py_truthy (v : pyval) : bool :=
  match v with
  | VNone => false
  | VInt z => negb (Z.eqb z 0)
  | VStr EmptyString => false
  | VStr _ => true
  | VTuple [] | VList [] => false
  | VTuple _ | VList _ => true
  end.

(** [a + b] *)
Definition py_add (a b : pyval) : result pyval :=
  match a, b with
  | VInt x, VInt y => Ok (VInt (x + y))
  | VStr x, VStr y => Ok (VStr (x +:+ y))
  | VTuple x, VTuple y => Ok (VTuple (x ++ y))
  | VList x, VList y => Ok (VList (x ++ y))
  | _, _ => Raise TypeError
  end.

Fixpoint chars (s : string) : list pyval :=
  match s with
  | EmptyString => []
  | String c s' => VStr (String c EmptyString) :: chars s'
  end.

(** The elements [for x in v] runs over. *)
Definition py_iter (v : pyval) : result (list pyval) :=
  match v with
  | VTuple l | VList l => Ok l
  | VStr s => Ok (chars s)
  | VNone | VInt _ => Raise TypeError
  end.

(** [len(v)] *)
Definition py_len (v : pyval) : result Z :=
  match v with
  | VTuple l | VList l => Ok (Z.of_nat (length l))
  | VStr s => Ok (Z.of_nat (String.length s))
  | VNone | VInt _ => Raise TypeError
  end.

(** [l[i]] on a sequence of [length l] elements, negative [i] counting from
    the end. *)
Definition seq_index (l : list pyval) (i : Z) : result pyval :=
  let n := Z.of_nat (length l) in
  let j := if i <? 0 then i + n else i in
  if (j <? 0) || (n <=? j) then Raise IndexError
  else match nth_error l (Z.to_nat j) with
       | Some x => Ok x
       | None => Raise IndexError
       end.

(** [v[i]] *)
Definition py_getitem (v : pyval) (i : Z) : result pyval :=
  match v with
  | VTuple l | VList l => seq_index l i
  | VStr s => seq_index (chars s) i
  | VNone | VInt _ => Raise TypeError
  end.

(** [v in l] for a list of strings: equality with some element. *)
Definition py_in_list (v : pyval) (l : list string) : bool :=
  existsb (fun x => py_eq v (VStr x)) l.

(** ** Strings *)

Definition newline : ascii := "010"%char.
Definition dquote : ascii := "034"%char.
Definition squote : ascii := "039"%char.
Definition backslash : ascii := "092"%char.

(** Characters removed by [str.strip()]. *)
Definition is_space (c : ascii) : bool :=
  let n := nat_of_ascii c in
  ((9 <=? n) && (n <=? 13) || (28 <=? n) && (n <=? 32))%nat.

Definition is_digit (c : ascii) : bool :=
  let n := nat_of_ascii c in ((48 <=? n) && (n <=? 57))%nat.

Fixpoint lstrip (p : ascii -> bool) (s : string) : string :=
  match s with
  | String c s' => if p c then lstrip p s' else s
  | EmptyString => EmptyString
  end.

Fixpoint rstrip (p : ascii -> bool) (s : string) : string :=
  match s with
  | String c s' =>
      match rstrip p s' with
      | EmptyString => if p c then EmptyString else String c EmptyString
      | t => String c t
      end
  | EmptyString => EmptyString
  end.

(** [s.strip()] and [s.strip(" ")]. *)
Definition strip (s : string) : string := rstrip is_space (lstrip is_space s).
Definition strip_chars (p : ascii -> bool) (s : string) : string :=
  rstrip p (lstrip p s).

(** [s.split(sep)] for a one-character separator. *)
Fixpoint split (sep : ascii) (s : string) : list string :=
  match s with
  | EmptyString => [EmptyString]
  | String c s' =>
      if Ascii.eqb c sep then EmptyString :: split sep s'
      else match split sep s' with
           | h :: t => String c h :: t
           | [] => [String c EmptyString]
           end
  end.

(** [sep.join(l)] *)
Fixpoint join (sep : string) (l : list string) : string :=
  match l with
  | [] => EmptyString
  | [x] => x
  | x :: l' => x +:+ sep +:+ join sep l'
  end.

Definition startswith (c : ascii) (s : string) : bool :=
  match s with
  | String c' _ => Ascii.eqb c' c
  | EmptyString => false
  end.

Fixpoint endswith (c : ascii) (s : string) : bool :=
  match s with
  | EmptyString => false
  | String c' EmptyString => Ascii.eqb c' c
  | String _ s' => endswith c s'
  end.

Definition lower_char (c : ascii) : ascii :=
  let n := nat_of_ascii c in
  if ((65 <=? n) && (n <=? 90))%nat then ascii_of_nat (n + 32) else c.

(** The rest of [s] after the prefix [w], when [s] starts with [w]. *)
Fixpoint strip_prefix (w s : string) : option string :=
  match w with
  | EmptyString => Some s
  | String c w' =>
      match s with
      | String c' s' => if Ascii.eqb c c' then strip_prefix w' s' else None
      | EmptyString => None
      end
  end.

(** [w in s] for two texts. *)
Fixpoint contains (w s : string) : bool :=
  match strip_prefix w s with
  | Some _ => true
  | None =>
      match s with
      | String _ s' => contains w s'
      | EmptyString => false
      end
  end.

(** [s.lower()] *)
Fixpoint lower (s : string) : string :=
  match s with
  | EmptyString => EmptyString
  | String c s' => String (lower_char c) (lower s')
  end.

(** White space skipped by [int] around an ASCII numeral. *)
Definition is_int_space (c : ascii) : bool :=
  let n := nat_of_ascii c in
  ((9 <=? n) && (n <=? 13) || (n =? 32))%nat.

(** [int(s)]: optional surrounding white space, an optional sign, then
    decimal digits, single underscores allowed between digits.  Integers
    are unbounded: a limit on the length of a numeral, which the
    interpreter may impose, is not modelled. *)
Fixpoint int_digits (s : string) (acc : Z) (after_digit : bool) : option Z :=
  match s with
  | EmptyString => if after_digit then Some acc else None
  | String c s' =>
      if is_digit c
      then int_digits s' (10 * acc + Z.of_nat (nat_of_ascii c - 48)) true
      else if Ascii.eqb c "_" && after_digit
           then match s' with
                | String c' _ => if is_digit c' then int_digits s' acc false else None
                | EmptyString => None
                end
           else None
  end.

Definition py_int (s : string) : result Z :=
  let t := strip_chars is_int_space s in
  let r := match t with
           | String "-" t' => option_map Z.opp (int_digits t' 0 false)
           | String "+" t' => int_digits t' 0 false
           | _ => int_digits t 0 false
           end in
  match r with
  | Some z => Ok z
  | None => Raise ValueError
  end.

(** ** Regular expressions *)

Inductive regex :=
| Sat (p : ascii -> bool)            (* one character: a literal, [.], a class *)
| Eps                                (* the empty pattern *)
| Seq (r1 r2 : regex)
| Star (greedy : bool) (r : regex)   (* [r*] and [r*?] *)
| Opt (r : regex)                    (* [r?] *)
| Group (r : regex)                  (* the capturing group [(r)] *)
| Eos.                               (* [$] *)

(** Where a match ended (the text after it) and what group 1 captured. *)
Definition mres : Type := string * option string.
Definition cont : Type := string -> option string -> option mres.

(** The text between the position [s] and the later position [s']. *)
Definition consumed (s s' : string) : string :=
  substring 0 (String.length s - String.length s') s.

(** [$]: at the end of the text, or before a newline that ends it. *)
Definition at_end (s : string) : bool :=
  match s with
  | EmptyString => true
  | String c EmptyString => Ascii.eqb c newline
  | _ => false
  end.

(** Repetition of [body]; every iteration has to consume some text, so
    [S (String.length s)] iterations are never used up. *)
Fixpoint star_loop (greedy : bool)
    (body : string -> option string -> cont -> option mres)
    (k : cont) (fuel : nat) (s : string) (g : option string) : option mres :=
  match fuel with
  | O => k s g
  | S fuel' =>
      let again :=
        body s g (fun s' g' =>
          if (String.length s' <? String.length s)%nat
          then star_loop greedy body k fuel' s' g' else None) in
      if greedy
      then match again with Some x => Some x | None => k s g end
      else match k s g with Some x => Some x | None => again end
  end.

(** Backtracking matcher in continuation-passing style: [rmatch r s g k]
    matches [r] at the start of [s] and calls [k] on the rest; the first
    success in Python's order of alternatives is the result. *)
Fixpoint rmatch (r : regex) (s : string) (g : option string) (k : cont)
    {struct r} : option mres :=
  match r with
  | Sat p =>
      match s with
      | String c s' => if p c then k s' g else None
      | EmptyString => None
      end
  | Eps => k s g
  | Seq r1 r2 => rmatch r1 s g (fun s' g' => rmatch r2 s' g' k)
  | Star gr r1 => star_loop gr (rmatch r1) k (S (String.length s)) s g
  | Opt r1 =>
      match rmatch r1 s g k with
      | Some x => Some x
      | None => k s g
      end
  | Group r1 => rmatch r1 s g (fun s' _ => k s' (Some (consumed s s')))
  | Eos => if at_end s then k s g else None
  end.

Definition accept : cont := fun s g => Some (s, g).

(** [r.match(s)] *)
Definition match_here (r : regex) (s : string) : option mres :=
  rmatch r s None accept.

(** [r.search(s)]: the leftmost match, as (text before it, (text after it,
    group 1)). *)
Fixpoint re_search (r : regex) (s : string) : option (string * mres) :=
  match match_here r s with
  | Some res => Some (EmptyString, res)
  | None =>
      match s with
      | EmptyString => None
      | String c s' =>
          match re_search r s' with
          | Some (pre, res) => Some (String c pre, res)
          | None => None
          end
      end
  end.

(** [m.group(1)] as a Python value: None when the group took no part. *)
Definition group1 (m : string * mres) : pyval :=
  match snd (snd m) with
  | Some t => VStr t
  | None => VNone
  end.

(** The text a match object's group 1 contributes to [findall] and to a
    [\1] template: empty when the group took no part. *)
Definition group_text (g : option string) : string :=
  match g with
  | Some t => t
  | None => EmptyString
  end.

(** Where scanning resumes after a match that started at [from] and ended
    at [rest]: at [rest], one character further after an empty match, and
    nowhere ([None]) after an empty match at the end of the text.  The
    character stepped over is returned too. *)
Definition resume (from rest : string) : option (string * string) :=
  if (String.length rest <? String.length from)%nat
  then Some (EmptyString, rest)
  else match rest with
       | EmptyString => None
       | String c rest' => Some (String c EmptyString, rest')
       end.

Definition drop_string (n : nat) (s : string) : string :=
  substring n (String.length s - n) s.

(** [r.findall(s)] for a pattern with one group. *)
Fixpoint findall_loop (fuel : nat) (r : regex) (s : string) : list string :=
  match fuel with
  | O => []
  | S fuel' =>
      match re_search r s with
      | None => []
      | Some (pre, (rest, g)) =>
          group_text g ::
          match resume (drop_string (String.length pre) s) rest with
          | Some (_, s') => findall_loop fuel' r s'
          | None => []
          end
      end
  end.

Definition re_findall (r : regex) (s : string) : list string :=
  findall_loop (S (String.length s)) r s.

(** [re.sub(r, repl, s)] where [repl] maps group 1 of a match to the
    replacement text. *)
Fixpoint sub_loop (fuel : nat) (r : regex) (repl : option string -> string)
    (s : string) : string :=
  match fuel with
  | O => s
  | S fuel' =>
      match re_search r s with
      | None => s
      | Some (pre, (rest, g)) =>
          pre +:+ repl g +:+
          match resume (drop_string (String.length pre) s) rest with
          | Some (skipped, s') => skipped +:+ sub_loop fuel' r repl s'
          | None => EmptyString
          end
      end
  end.

Definition re_sub (r : regex) (repl : option string -> string) (s : string)
  : string :=
  sub_loop (S (String.length s)) r repl s.

(** *** Pattern syntax *)

Fixpoint seq (l : list regex) : regex :=
  match l with
  | [] => Eps
  | r :: l' => Seq r (seq l')
  end.

Definition chr (c : ascii) : regex := Sat (Ascii.eqb c).

(** A literal text. *)
Fixpoint lit (w : string) : regex :=
  match w with
  | EmptyString => Eps
  | String c w' => Seq (chr c) (lit w')
  end.

(** [.]: any character but a newline; [dot_all] is [.] under DOTALL. *)
Definition dot : regex := Sat (fun c => negb (Ascii.eqb c newline)).
Definition dot_all : regex := Sat (fun _ => true).
(** [\d] *)
Definition digit : regex := Sat is_digit.
(** [[A-D]] *)
Definition is_A_to_D (c : ascii) : bool :=
  let n := nat_of_ascii c in ((65 <=? n) && (n <=? 68))%nat.
Definition A_to_D : regex := Sat is_A_to_D.
(** [[^...]] *)
Definition none_of (w : string) : regex :=
  Sat (fun c => negb (existsb (Ascii.eqb c) (list_ascii_of_string w))).

(** [r+] and [r+?] *)
Definition plus (greedy : bool) (r : regex) : regex := Seq r (Star greedy r).

(** ** answer_extraction.py *)

Definition text_to_int_dict : list (string * Z) :=
  [ ("zero", 0); ("one", 1); ("two", 2); ("three", 3); ("four", 4);
    ("five", 5); ("six", 6); ("seven", 7); ("eight", 8); ("nine", 9);
    ("ten", 10); ("eleven", 11); ("twelve", 12); ("thirteen", 13);
    ("fourteen", 14); ("fifteen", 15); ("sixteen", 16); ("seventeen", 17);
    ("eighteen", 18); ("nineteen", 19); ("twenty", 20) ].

Fixpoint dict_get (d : list (string * Z)) (s : string) : option Z :=
  match d with
  | [] => None
  | (key, z) :: d' => if String.eqb key s then Some z else dict_get d' s
  end.

Definition _text_to_int (s : string) : pyval :=
  match dict_get text_to_int_dict s with
  | Some z => VInt z
  | None => VNone
  end.

(** [\(([^()]+)\)] *)
Definition paren_group_re : regex :=
  seq [chr "("; Group (plus true (none_of "()")); chr ")"].

Definition quote_part (p : string) : string :=
  if (startswith squote p && endswith squote p)
     || (startswith dquote p && endswith dquote p)
  then p
  else String squote p +:+ String squote EmptyString.

Definition replacer (g : option string) : string :=
  let content := group_text g in
  let parts := map strip (split "," content) in
  let quoted_parts := map quote_part parts in
  "(" +:+ join ", " quoted_parts +:+ ")".

Definition _insert_quotes_in_tuples (candidate : string) : string :=
  re_sub paren_group_re replacer candidate.

(** [```python\n(.*?)```] with DOTALL *)
Definition code_block_re : regex :=
  seq [lit "```python"; chr newline; Group (Star false dot_all); lit "```"].

Definition is_tuple (v : pyval) : bool :=
  match v with
  | VTuple _ => true
  | _ => false
  end.

(** [isinstance(item, tuple) and len(item) == 3] *)
Definition is_3_tuple (item : pyval) : bool :=
  match item with
  | VTuple l => Nat.eqb (length l) 3
  | _ => false
  end.

(** The six substitutions of [_remove_text_formatting], each keeping the
    digits it captured. *)
Definition _remove_text_formatting (response : string) : string :=
  let response := re_sub (seq [chr "#"; Group (plus true digit)]) group_text response in
  let response := re_sub (seq [Group (plus true digit); chr "#"]) group_text response in
  let response := re_sub (seq [lit "**"; Group (plus true digit)]) group_text response in
  let response := re_sub (seq [Group (plus true digit); lit "**"]) group_text response in
  let response := re_sub (seq [chr backslash; Group (plus true digit)]) group_text response in
  let response := re_sub (seq [Group (plus true digit); chr backslash]) group_text response in
  response.

(** [appear.*?(\d+).*?time] *)
Definition count_re : regex :=
  seq [lit "appear"; Star false dot; Group (plus true digit); Star false dot;
       lit "time"].

(** [.*appear \**\\?\[(.+)?\\?\]\** time] *)
Definition count_multi_re : regex :=
  seq [Star true dot; lit "appear "; Star true (chr "*"); Opt (chr backslash);
       chr "["; Opt (Group (plus true dot)); Opt (chr backslash); chr "]";
       Star true (chr "*"); lit " time"].

(** [try: ans = int(s) / except ValueError: ans = _text_to_int(s)] *)
Definition int_or_word (s : string) : result pyval :=
  try_except (let* z := py_int s in Ok (VInt z)) ValueError (Ok (_text_to_int s)).

Definition extract_count_eval (response : string) (k : Z) : result pyval :=
  if k =? 1 then
    let match_obj := re_search count_re response in
    let ans := VStr EmptyString in
    match match_obj with
    | None => Ok (VList [ans])
    | Some m =>
        match group1 m with
        | VStr s =>
            let s := _remove_text_formatting s in
            let* ans := int_or_word s in
            Ok (VList [ans])
        | _ => Raise TypeError
        end
    end
  else
    let match_obj := re_search count_multi_re response in
    (* [ans] has not been assigned on this path *)
    let ans : option pyval := None in
    match match_obj with
    | None =>
        let* a := read_local ans in
        Ok (VList (repeat a (Z.to_nat k)))
    | Some m =>
        match group1 m with
        | VStr s =>
            let ans_list := split "," s in
            let* answers :=
              (fix loop (l : list string) : result (list pyval) :=
                 match l with
                 | [] => Ok []
                 | ans :: l' =>
                     let* ans := int_or_word (_remove_text_formatting ans) in
                     let* answers := loop l' in
                     Ok (ans :: answers)
                 end) ans_list in
            if negb (Z.of_nat (length answers) =? k)
            then Ok (VList [VStr EmptyString])
            else Ok (VList answers)
        | _ => Raise AttributeError
        end
    end.

(** The pattern of [extract_mathgap_eval]: the text [boxed{], a captured
    run (possibly empty, greedy) of characters other than a closing brace,
    and a closing brace. *)
Definition boxed_content_re : regex :=
  seq [lit "boxed{"; Group (Star true (none_of "}")); chr "}"].

Definition extract_mathgap_eval (response : string) : result pyval :=
  let matches := re_findall boxed_content_re response in
  let answer := VNone in
  match last matches with
  | None => Ok answer
  | Some t => try_except (let* z := py_int t in Ok (VInt z)) ValueError (Ok VNone)
  end.

(** [.*<answer>([A-D])</answer>] *)
Definition extract_answer_html : regex :=
  seq [Star true dot; lit "<answer>"; Group A_to_D; lit "</answer>"].
(** [boxed\{([A-D])\}] *)
Definition extract_answer_boxed : regex :=
  seq [lit "boxed{"; Group A_to_D; chr "}"].
(** [answer:? ([A-D])] *)
Definition extract_answer_sentence : regex :=
  seq [lit "answer"; Opt (chr ":"); chr " "; Group A_to_D].
(** [answer.*?([A-D])]: the source binds this name twice, the second
    binding is the one in force. *)
Definition extract_answer_sentence2 : regex :=
  seq [lit "answer"; Star false dot; Group A_to_D].

Definition compiled_res : list regex :=
  [extract_answer_html; extract_answer_boxed; extract_answer_sentence;
   extract_answer_sentence2].

Fixpoint logic_loop (res : list regex) (response : string) : pyval :=
  match res with
  | [] => VStr EmptyString
  | comp :: res' =>
      match re_search comp response with
      | Some match_object => group1 match_object
      | None => logic_loop res' response
      end
  end.

Definition extract_logic_eval (response : string) : pyval :=
  logic_loop compiled_res response.

Definition find_answers : list regex :=
  [ (* boxed\{(.+?)\} *)
    seq [lit "boxed{"; Group (plus false dot); chr "}"];
    (* Answer.*\*{2}(.+)\*{2} *)
    seq [lit "Answer"; Star true dot; lit "**"; Group (plus true dot); lit "**"];
    (* \*{2}Answer:? (.+)\*{2} *)
    seq [lit "**Answer"; Opt (chr ":"); chr " "; Group (plus true dot); lit "**"];
    (* answer is:? (.+). *)
    seq [lit "answer is"; Opt (chr ":"); chr " "; Group (plus true dot); dot];
    (* \*{2}answer is:? (.+)\*{2} *)
    seq [lit "**answer is"; Opt (chr ":"); chr " "; Group (plus true dot); lit "**"];
    (* Answer: (.+). *)
    seq [lit "Answer: "; Group (plus true dot); dot];
    (* /$(.+?)/$ *)
    seq [chr "/"; Eos; Group (plus false dot); chr "/"; Eos] ].

(** [s in ["your answer", "answer"]] *)
Definition is_placeholder (s : string) : bool :=
  String.eqb s "your answer" || String.eqb s "answer".

(** The inner loop: the first capture that is returned, if any. *)
Fixpoint first_acceptable (matches : list string) : option string :=
  match matches with
  | [] => None
  | s :: matches' => if negb (is_placeholder s) then Some s else first_acceptable matches'
  end.

Fixpoint unpuzzle_loop (res : list regex) (response : string) : string :=
  match res with
  | [] => EmptyString
  | regex :: res' =>
      let matches := re_findall regex response in
      match matches with
      | [] => unpuzzle_loop res' response
      | _ =>
          match first_acceptable matches with
          | Some s => s
          | None => unpuzzle_loop res' response
          end
      end
  end.

Definition extract_unpuzzle_eval (response : string) : string :=
  unpuzzle_loop find_answers response.

(** *** Task descriptors *)

Inductive task_kind := Counting | Mathgap | Travel | Logic | Unknown.

Definition tag_in (task : string) (tags : list string) : bool :=
  existsb (String.eqb task) tags.

(** The chain of tests on [json_entry["task"]] shared by [extract_eval] and
    [score_eval]. *)
Definition task_kind_of (task : string) : task_kind :=
  if tag_in task ["character_count"; "word_count"] then Counting
  else if tag_in task ["mathgap_diverse"; "mathgap_irrelevant"] then Mathgap
  else if String.eqb task "travel" then Travel
  else if tag_in task ["logic_negation"; "logic_evaluation"] then Logic
  else Unknown.

(** The ground truth of a travel task. *)
Record TravelConstraint := {
  city_start : string;
  city_end : string;
  total_budget : Z;
  steps : Z;
  graph : gmap string (gmap string (list string));
  costs : gmap string Z
}.

(** The ground truth stored under ["answer"], by kind of task: the mapping
    of a counting task in insertion order, the number of a mathgap task,
    the constraint of a travel task, the letter of a logic task. *)
Definition answer_type (kind : task_kind) : Type :=
  match kind with
  | Counting => list (string * Z)
  | Mathgap => pyval
  | Travel => TravelConstraint
  | Logic => string
  | Unknown => pyval
  end.

(** A task descriptor: [entry_task] is [json_entry["task"]], [entry_k] is
    [json_entry["k"]] when the key is present, [entry_answer] is
    [json_entry["answer"]]. *)
Record json_entry := {
  entry_task : string;
  entry_k : option Z;
  entry_answer : answer_type (task_kind_of entry_task)
}.

Section Extraction.

(** [ast.literal_eval], which is not part of this repository. *)
Variable literal_eval : string -> result pyval.

Definition extract_travel_eval (response : string) : result pyval :=
  let matches := re_findall code_block_re response in
  match last matches with
  | None => Ok (VList [])
  | Some block =>
      let travel_plan_str := strip block in
      let travel_plan_str := _insert_quotes_in_tuples travel_plan_str in
      try_except
        (let* travel_plan := literal_eval travel_plan_str in
         let* first := py_getitem travel_plan 0 in
         let* travel_plan :=
           if is_tuple first then py_iter travel_plan else Ok [travel_plan] in
         if forallb is_3_tuple travel_plan
         then Ok (VList travel_plan)
         else Ok (VList []))
        SyntaxError (Ok (VList []))
  end.

Definition extract_eval (json_entry : json_entry) (response : string)
  : result pyval :=
  match task_kind_of (entry_task json_entry) with
  | Counting =>
      match entry_k json_entry with
      | Some k => extract_count_eval response k
      | None => Raise KeyError
      end
  | Mathgap => extract_mathgap_eval response
  | Travel => extract_travel_eval response
  | Logic => Ok (extract_logic_eval response)
  | Unknown => Ok (VStr EmptyString)
  end.

End Extraction.

(** ** answer_scoring.py *)

(** [v in d] for a dictionary [d] with string keys, together with the entry
    found: [Some (key, d[v])] when [v] is a key.  A value that cannot be
    hashed raises. *)
Definition lookup_key {V : Type} (v : pyval) (d : gmap string V)
  : result (option (string * V)) :=
  match v with
  | VStr s =>
      Ok (match d !! s with
          | Some x => Some (s, x)
          | None => None
          end)
  | _ => if hashable v then Ok None else Raise TypeError
  end.

(** The loop of [_validate_connectivity]: [Ok None] is an early
    [return False], [Ok (Some visited)] the set of cities after the last
    step. *)
Fixpoint connectivity_loop (graph : gmap string (gmap string (list string)))
    (user_solution : list pyval) (visited_cities : gset string)
    (current_city : pyval) : result (option (gset string)) :=
  match user_solution with
  | [] => Ok (Some visited_cities)
  | step :: rest =>
      let* n := py_len step in
      if negb (n =? 3) then Ok None else
      let* fields := py_iter step in
      match fields with
      | [city1; city2; mode] =>
          (* city1 not in graph *)
          let* e1 := lookup_key city1 graph in
          match e1 with
          | None => Ok None
          | Some (c1, reachable) =>
              (* city2 not in graph[city1] *)
              let* e2 := lookup_key city2 reachable in
              match e2 with
              | None => Ok None
              | Some (c2, modes) =>
                  (* mode not in graph[city1][city2] *)
                  if negb (py_in_list mode modes) then Ok None else
                  (* city1 != current_city *)
                  if negb (py_eq city1 current_city) then Ok None else
                  connectivity_loop graph rest
                    ({[c2]} ∪ ({[c1]} ∪ visited_cities)) city2
              end
          end
      | _ => Raise ValueError
      end
  end.

Definition _validate_connectivity (city_start : string) (num_cities : Z)
    (graph : gmap string (gmap string (list string))) (user_solution : pyval)
  : result bool :=
  let* steps := py_iter user_solution in
  let* walk := connectivity_loop graph steps ∅ (VStr city_start) in
  match walk with
  | None => Ok false
  | Some visited_cities =>
      if Z.of_nat (size visited_cities) <? num_cities then Ok false else Ok true
  end.

(** The loop of [_validate_budget]: [Ok None] is an early [return False],
    [Ok (Some total)] the total cost after the last step. *)
Fixpoint budget_loop (costs : gmap string Z) (user_solution : list pyval)
    (total_cost : Z) : result (option Z) :=
  match user_solution with
  | [] => Ok (Some total_cost)
  | step :: rest =>
      let* fields := py_iter step in
      match fields with
      | [city1; city2; mode] =>
          let* r :=
            try_except
              (let* k12 := py_add city1 city2 in
               let* key := py_add k12 mode in
               let* e := lookup_key key costs in
               match e with
               | Some (_, cost) => Ok (Some (total_cost + cost))
               | None => Ok None
               end)
              TypeError (Ok None) in
          match r with
          | Some total_cost' => budget_loop costs rest total_cost'
          | None => Ok None
          end
      | _ => Raise ValueError
      end
  end.

Definition _validate_budget (costs : gmap string Z) (total_budget : Z)
    (user_solution : pyval) : result bool :=
  let* steps := py_iter user_solution in
  let* total := budget_loop costs steps 0 in
  match total with
  | None => Ok false
  | Some total_cost => if total_cost >? total_budget then Ok false else Ok true
  end.

Definition score_travel_eval (correct_answer : TravelConstraint)
    (user_solution : pyval) : result bool :=
  if negb (py_truthy user_solution) then Ok false else
  let* last_step := py_getitem user_solution (-1) in
  let* destination := py_getitem last_step 1 in
  if negb (py_eq destination (VStr (city_end correct_answer))) then Ok false else
  let* connected :=
    _validate_connectivity (city_start correct_answer) (steps correct_answer)
      (graph correct_answer) user_solution in
  if negb connected then Ok false else
  let* affordable :=
    _validate_budget (costs correct_answer) (total_budget correct_answer)
      user_solution in
  if negb affordable then Ok false else
  Ok true.

(** [correct_answer.values()], in insertion order. *)
Definition values (correct_answer : list (string * Z)) : list pyval :=
  map (fun kv => VInt (snd kv)) correct_answer.

Definition score_count_eval (correct_answer : list (string * Z))
    (answer : pyval) : result bool :=
  if negb (py_truthy answer) then Ok false else
  let* candidates := py_iter answer in
  let bools := map (fun p => py_eq (fst p) (snd p))
                   (combine candidates (values correct_answer)) in
  Ok (forallb id bools).

Definition score_mathgap_eval (correct_answer answer : pyval) : bool :=
  py_eq correct_answer answer.

Definition score_logic_eval (correct_answer : string) (answer : pyval)
  : result bool :=
  if negb (py_truthy answer) then Ok false else
  match answer with
  | VStr a => Ok (String.eqb (lower correct_answer) (lower a))
  | _ => Raise AttributeError
  end.

Definition is_blank (c : ascii) : bool := Ascii.eqb c " ".

Definition score_unpuzzle_eval (s1 s2 : string) : bool :=
  String.eqb (strip_chars is_blank (lower s1)) (strip_chars is_blank (lower s2)).

Definition score_eval (json_entry : json_entry) (answer : pyval) : result bool :=
  match task_kind_of (entry_task json_entry) as kind
        return answer_type kind -> result bool with
  | Counting => fun correct_answer => score_count_eval correct_answer answer
  | Mathgap => fun correct_answer => Ok (score_mathgap_eval correct_answer answer)
  | Travel => fun correct_answer => score_travel_eval correct_answer answer
  | Logic => fun correct_answer => score_logic_eval correct_answer answer
  | Unknown => fun _ => Ok false
  end (entry_answer json_entry).

(** ** Vocabulary of the statements *)

(** An itinerary step and an itinerary as the Python values the scorer
    receives. *)
Definition step_val (s : string * string * string) : pyval :=
  VTuple [VStr s.1.1; VStr s.1.2; VStr s.2].

Definition plan_val (sol : list (string * string * string)) : pyval :=
  VList (map step_val sol).

(** The running current city when step [i] is reached. *)
Definition city_before (start : string) (sol : list (string * string * string))
    (i : nat) : string :=
  match i with
  | O => start
  | S j =>
      match sol !! j with
      | Some s => s.1.2
      | None => start
      end
  end.

(** The triple (origin, destination, mode) exists in the graph. *)
Definition edge (graph : gmap string (gmap string (list string)))
    (a d m : string) : Prop :=
  ∃ reachable modes,
    graph !! a = Some reachable ∧ reachable !! d = Some modes ∧ m ∈ modes.

(** All origins and destinations of an itinerary. *)
Definition cities (sol : list (string * string * string)) : gset string :=
  list_to_set (flat_map (fun s => [s.1.1; s.1.2]) sol).

(** What extraction yields when nothing in the response matches, by kind of
    task. *)
Definition sentinel (kind : task_kind) : pyval :=
  match kind with
  | Counting => VList [VStr EmptyString]
  | Mathgap => VNone
  | Travel => VList []
  | Logic => VStr EmptyString
  | Unknown => VStr EmptyString
  end.

(** The ground truth of a counting task has at least one value, the one of
    a mathgap task is not None. *)
Definition informative_truth (e : json_entry) : Prop :=
  match task_kind_of (entry_task e) as kind return answer_type kind -> Prop with
  | Counting => fun m => m ≠ []
  | Mathgap => fun v => v ≠ VNone
  | _ => fun _ => True
  end (entry_answer e).

(** A function that agrees with [ast.literal_eval] on the three texts
    [[]], [5] and [foo]. *)
Definition literal_eval_sample (s : string) : result pyval :=
  if String.eqb s "[]" then Ok (VList [])
  else if String.eqb s "5" then Ok (VInt 5)
  else Raise ValueError.


(** The conjunction computed by [score_count_eval] over the zipped pairs. *)
Definition zip_all (candidates truth : list pyval) : bool :=
  forallb id (map (fun p => py_eq (fst p) (snd p)) (combine candidates truth)).

(** Boolean forms of [edge] and of the walk from a current city. *)
Definition edgeb (graph : gmap string (gmap string (list string)))
    (a d m : string) : bool :=
  match graph !! a with
  | Some reachable =>
      match reachable !! d with
      | Some modes => existsb (String.eqb m) modes
      | None => false
      end
  | None => false
  end.

Fixpoint walkb (graph : gmap string (gmap string (list string)))
    (current : string) (sol : list (string * string * string)) : bool :=
  match sol with
  | [] => true
  | s :: rest =>
      String.eqb s.1.1 current && edgeb graph s.1.1 s.1.2 s.2
      && walkb graph s.1.2 rest
  end.

(** A step whose three fields are arbitrary values. *)
Definition triple_val (t : pyval * pyval * pyval) : pyval :=
  VTuple [t.1.1; t.1.2; t.2].

(** The cost found for a step: the three fields are strings and their
    concatenation is a key of the table. *)
Definition step_cost (costs : gmap string Z) (t : pyval * pyval * pyval)
  : option Z :=
  match t with
  | (VStr a, VStr d, VStr m) => costs !! ((a +:+ d) +:+ m)
  | _ => None
  end.

Fixpoint plan_cost (costs : gmap string Z) (sol : list (pyval * pyval * pyval))
  : option Z :=
  match sol with
  | [] => Some 0
  | t :: rest =>
      match step_cost costs t, plan_cost costs rest with
      | Some c, Some r => Some (c + r)
      | _, _ => None
      end
  end.

(** The constraint of the description's travel example: one edge from
    Fresno to Irvine by motorhome, at cost 10. *)
Definition sample_graph : gmap string (gmap string (list string)) :=
  {[ "Fresno" := {[ "Irvine" := ["motorhome"] ]} ]}.

Definition sample_constraint (budget : Z) : TravelConstraint :=
  {| city_start := "Fresno"; city_end := "Irvine"; total_budget := budget;
     steps := 2; graph := sample_graph;
     costs := {[ "FresnoIrvinemotorhome" := 10 ]} |}.


(** A response made of one python-fenced block with the given body. *)
Definition block (body : string) : string :=
  "```python" +:+ String newline (body +:+ String newline "```").

(** The three fields of a step of strings, as values. *)
Definition fields_val (s : string * string * string) : pyval * pyval * pyval :=
  (VStr s.1.1, VStr s.1.2, VStr s.2).

(** Every character of [s] satisfies [p]. *)
Fixpoint all_chars (p : ascii -> bool) (s : string) : bool :=
  match s with
  | EmptyString => true
  | String c s' => p c && all_chars p s'
  end.

(** A function that agrees with [ast.literal_eval] on the text
    [[('Fresno', 'Irvine', 'motorhome')]]. *)
Definition literal_eval_itinerary_sample (s : string) : result pyval :=
  if String.eqb s "[('Fresno', 'Irvine', 'motorhome')]"
  then Ok (VList [VTuple [VStr "Fresno"; VStr "Irvine"; VStr "motorhome"]])
  else Raise SyntaxError.

(** The value one captured text of the counting patterns is turned into:
    its [int], or the number its English word names, or None. *)
Definition count_answer (s : string) : pyval :=
  match py_int s with
  | Ok z => VInt z
  | Raise _ => _text_to_int s
  end.

(** None or an integer. *)
Definition int_or_none (a : pyval) : Prop := a = VNone ∨ ∃ z, a = VInt z.

(** Group 1 of a match holds one letter from A to D. *)
Definition is_letter_capture (res : mres) : Prop :=
  ∃ x, is_A_to_D x = true ∧ res.2 = Some (String x EmptyString).




(** ** The tests of the repository and the examples of the description *)

Example insert_quotes_bare_tokens :
  _insert_quotes_in_tuples "(Fresno, Irvine, motorhome)"
  = "('Fresno', 'Irvine', 'motorhome')".
Proof. vm_compute. reflexivity. Qed.

Example insert_quotes_token_with_space :
  _insert_quotes_in_tuples "(Fort Wayne, Boise, flight)"
  = "('Fort Wayne', 'Boise', 'flight')".
Proof. vm_compute. reflexivity. Qed.

Example extract_count_eval_three_answers :
  extract_count_eval "The words appear **[ 3 , 4 , 5 ]** times." 3
  = Ok (VList [VInt 3; VInt 4; VInt 5]).
Proof. vm_compute. reflexivity. Qed.

Example extract_count_eval_one_answer :
  extract_count_eval "The words 'apple' appears **12** times in this sentence." 1
  = Ok (VList [VInt 12]).
Proof. vm_compute. reflexivity. Qed.

Example extract_mathgap_eval_boxed :
  extract_mathgap_eval "The answer is \boxed{42}." = Ok (VInt 42).
Proof. vm_compute. reflexivity. Qed.

Example extract_mathgap_eval_last_marker :
  extract_mathgap_eval "First \boxed{41}, then \boxed{42}." = Ok (VInt 42).
Proof. vm_compute. reflexivity. Qed.

Example extract_logic_eval_sentence :
  extract_logic_eval "The answer is: A." = VStr "A".
Proof. vm_compute. reflexivity. Qed.

Example extract_logic_eval_boxed :
  extract_logic_eval "The answer is: \boxed{B}." = VStr "B".
Proof. vm_compute. reflexivity. Qed.

Example extract_logic_eval_final_answer :
  extract_logic_eval "Final answer: C." = VStr "C".
Proof. vm_compute. reflexivity. Qed.

Example extract_unpuzzle_eval_boxed :
  extract_unpuzzle_eval "The answer is: \boxed{42}." = "42".
Proof. vm_compute. reflexivity. Qed.

Example extract_unpuzzle_eval_sentence :
  extract_unpuzzle_eval "The answer is: 42." = "42".
Proof. vm_compute. reflexivity. Qed.

Example extract_unpuzzle_eval_bold :
  extract_unpuzzle_eval "**Answer: 42**" = "42".
Proof. vm_compute. reflexivity. Qed.

Example score_travel_eval_within_budget :
  score_travel_eval (sample_constraint 10)
    (plan_val [("Fresno", "Irvine", "motorhome")]) = Ok true.
Proof. vm_compute. reflexivity. Qed.

Example score_travel_eval_over_budget :
  score_travel_eval (sample_constraint 9)
    (plan_val [("Fresno", "Irvine", "motorhome")]) = Ok false.
Proof. vm_compute. reflexivity. Qed.

(** ** Python values: equality *)

Lemma py_eq_int (a : pyval) (z : Z) : py_eq a (VInt z) = true ↔ a = VInt z.
Proof.
  destruct a as [|x|s|l|l]; simpl; try (split; [discriminate|discriminate]).
  rewrite Z.eqb_eq. split; [intros ->; reflexivity | intros [= ->]; reflexivity].
Qed.

Lemma py_eq_str (a b : string) : py_eq (VStr a) (VStr b) = String.eqb a b.
Proof. reflexivity. Qed.

(** ** The counting scorer *)

Section Counting.

Implicit Types (candidates truth : list pyval).

Lemma zip_all_nil_r candidates : zip_all candidates [] = true.
Proof. unfold zip_all. destruct candidates; reflexivity. Qed.

Lemma zip_all_cons a v candidates truth :
  zip_all (a :: candidates) (v :: truth) = py_eq a v && zip_all candidates truth.
Proof. reflexivity. Qed.

(** Zip truncation: only positions present on both sides are compared. *)
Lemma zip_all_true (candidates : list pyval) (m : list (string * Z)) :
  zip_all candidates (values m) = true ↔
  ∀ i a v, candidates !! i = Some a → values m !! i = Some v → a = v.
Proof.
  revert m. induction candidates as [|a candidates IH]; intros m.
  - split; [intros _ i a v H; destruct i; discriminate | reflexivity].
  - destruct m as [|[key z] m].
    + rewrite zip_all_nil_r. split; [|reflexivity].
      intros _ i b v _ H. destruct i; discriminate.
    + change (values ((key, z) :: m)) with (VInt z :: values m).
      rewrite zip_all_cons, andb_true_iff, py_eq_int, IH. split.
      * intros [-> H] [|i] b v Hb Hv; simpl in *.
        -- congruence.
        -- eapply H; eassumption.
      * intros H. split.
        -- apply (H 0%nat); reflexivity.
        -- intros i b v Hb Hv. apply (H (S i)); assumption.
Qed.

Lemma zip_all_prefix (candidates : list pyval) (m : list (string * Z)) :
  take (length (values m)) candidates = values m →
  zip_all candidates (values m) = true.
Proof.
  intros Hpre. apply zip_all_true. intros i a v Ha Hv.
  assert (Hi : (i < length (values m))%nat) by (eapply lookup_lt_Some; eassumption).
  rewrite <- Hpre in Hv. rewrite lookup_take_lt in Hv by exact Hi. congruence.
Qed.

Lemma score_count_eval_list (m : list (string * Z)) (answer : list pyval) :
  answer ≠ [] →
  score_count_eval m (VList answer) = Ok (zip_all answer (values m)).
Proof. intros H. destruct answer; [congruence | reflexivity]. Qed.

End Counting.

(** C8. For a non-empty candidate sequence the counting scorer returns a
    verdict, and the verdict is true exactly when candidate and ground-truth
    value agree at every position that both sequences have (the values taken
    in insertion order, the longer sequence's remainder ignored); candidate
    [3, 4] against the values 3, 4, 5 scores true; an empty candidate scores
    false. *)
Theorem score_count_eval_zip_truncation :
  ∀ (correct_answer : list (string * Z)) (answer : list pyval),
    (answer ≠ [] →
     ∃ b, score_count_eval correct_answer (VList answer) = Ok b ∧
          (b = true ↔
           ∀ i a v, answer !! i = Some a →
                    values correct_answer !! i = Some v → a = v))
    ∧ score_count_eval [("a", 3); ("b", 4); ("c", 5)] (VList [VInt 3; VInt 4])
      = Ok true
    ∧ score_count_eval correct_answer (VList []) = Ok false.
Proof.
  intros m answer. split; [|split; reflexivity].
  intros Hne. exists (zip_all answer (values m)). split.
  - apply score_count_eval_list, Hne.
  - apply zip_all_true.
Qed.

Lemma score_count_eval_zip_truncation_witness :
  ∃ b, score_count_eval [("a", 3); ("b", 4)] (VList [VInt 3; VInt 5; VInt 6]) = Ok b ∧
       (b = true ↔
        ∀ i a v, [VInt 3; VInt 5; VInt 6] !! i = Some a →
                 values [("a", 3); ("b", 4)] !! i = Some v → a = v).
Proof.
  apply (score_count_eval_zip_truncation [("a", 3); ("b", 4)]
           [VInt 3; VInt 5; VInt 6]).
  discriminate.
Defined.

(** C10. For a non-empty candidate sequence the counting scorer returns true
    when the ground-truth mapping is empty, and when the mapping has fewer
    values than the candidate has elements and the candidate starts with
    those values: the extra elements of the candidate never make the verdict
    false. *)
Theorem score_count_eval_extra_candidates_ignored :
  ∀ (correct_answer : list (string * Z)) (answer : list pyval),
    answer ≠ [] →
    (correct_answer = [] →
     score_count_eval correct_answer (VList answer) = Ok true)
    ∧ ((length (values correct_answer) < length answer)%nat →
       take (length (values correct_answer)) answer = values correct_answer →
       score_count_eval correct_answer (VList answer) = Ok true).
Proof.
  intros m answer Hne. rewrite score_count_eval_list by exact Hne. split.
  - intros ->. simpl. rewrite zip_all_nil_r. reflexivity.
  - intros _ Hpre. rewrite zip_all_prefix by exact Hpre. reflexivity.
Qed.

Lemma score_count_eval_extra_candidates_ignored_witness :
  score_count_eval [] (VList [VStr "x"; VNone]) = Ok true
  ∧ score_count_eval [("a", 7)] (VList [VInt 7; VInt 8; VNone]) = Ok true.
Proof.
  split.
  - refine (proj1 (score_count_eval_extra_candidates_ignored []
                     [VStr "x"; VNone] _) eq_refl).
    discriminate.
  - refine (proj2 (score_count_eval_extra_candidates_ignored [("a", 7)]
                     [VInt 7; VInt 8; VNone] _) _ _);
      [discriminate | simpl; lia | reflexivity].
Defined.

(** ** The travel scorer: connectivity *)

Section Connectivity.

Variable graph : gmap string (gmap string (list string)).

Lemma edgeb_edge a d m : edgeb graph a d m = true ↔ edge graph a d m.
Proof.
  unfold edgeb, edge. split.
  - destruct (graph !! a) as [reachable|] eqn:Ha; [|discriminate].
    destruct (reachable !! d) as [modes|] eqn:Hd; [|discriminate].
    intros H. exists reachable, modes.
    split; [reflexivity|]. split; [exact Hd|].
    apply existsb_exists in H as (x & Hx & Heq).
    apply String.eqb_eq in Heq. subst x. apply list_elem_of_In, Hx.
  - intros (reachable & modes & -> & -> & Hm).
    apply existsb_exists. exists m. split.
    + apply list_elem_of_In, Hm.
    + apply String.eqb_refl.
Qed.

Lemma py_in_list_str m modes :
  py_in_list (VStr m) modes = existsb (String.eqb m) modes.
Proof. reflexivity. Qed.

Lemma cities_cons s sol : cities (s :: sol) = {[s.1.1]} ∪ ({[s.1.2]} ∪ cities sol).
Proof. unfold cities. simpl. reflexivity. Qed.

Lemma connectivity_loop_plan sol : ∀ visited current,
  connectivity_loop graph (map step_val sol) visited (VStr current)
  = Ok (if walkb graph current sol then Some (cities sol ∪ visited) else None).
Proof.
  induction sol as [|[[a d] m] sol IH]; intros visited current.
  - cbn [map connectivity_loop walkb]. f_equal. f_equal.
    symmetry. apply union_empty_l_L.
  - cbn [map step_val connectivity_loop py_len py_iter bind length fst snd].
    change (Z.of_nat 3 =? 3) with true. cbn [negb lookup_key bind].
    cbn [walkb fst snd]. unfold edgeb.
    destruct (graph !! a) as [reachable|]; cbn [bind];
      [|rewrite andb_false_r; reflexivity].
    destruct (reachable !! d) as [modes|]; cbn [bind];
      [|rewrite andb_false_r; reflexivity].
    rewrite py_in_list_str, py_eq_str.
    destruct (existsb (String.eqb m) modes); cbn [negb];
      [|rewrite andb_false_r; reflexivity].
    destruct (String.eqb a current); cbn [negb andb]; [|reflexivity].
    rewrite IH. destruct (walkb graph d sol); [|reflexivity].
    f_equal. f_equal. rewrite cities_cons. cbn [fst snd].
    apply set_eq. intros x. rewrite !elem_of_union. tauto.
Qed.

Lemma city_before_cons start s sol i :
  is_Some (sol !! i) →
  city_before start (s :: sol) (S i) = city_before s.1.2 sol i.
Proof.
  intros Hi. destruct i as [|j]; [reflexivity|].
  cbn [city_before]. rewrite lookup_cons.
  destruct (sol !! j) eqn:Hj; [reflexivity|].
  apply lookup_ge_None in Hj. destruct Hi as [x Hx].
  apply lookup_lt_Some in Hx. lia.
Qed.

Lemma walkb_walk sol : ∀ start,
  walkb graph start sol = true ↔
  ∀ i s, sol !! i = Some s →
         s.1.1 = city_before start sol i ∧ edge graph s.1.1 s.1.2 s.2.
Proof.
  induction sol as [|x sol IH]; intros start.
  - split; [intros _ i s H; destruct i; discriminate | reflexivity].
  - cbn [walkb]. rewrite !andb_true_iff, String.eqb_eq, edgeb_edge, IH. split.
    + intros [[Hx He] H] [|i] s Hs.
      * injection Hs as <-. split; assumption.
      * rewrite city_before_cons by (exists s; exact Hs). apply H, Hs.
    + intros H. split; [apply (H 0%nat x); reflexivity|].
      intros i s Hs. rewrite <- (city_before_cons start) by (exists s; exact Hs).
      apply (H (S i)), Hs.
Qed.

Lemma validate_connectivity_plan start num sol :
  _validate_connectivity start num graph (plan_val sol)
  = Ok (walkb graph start sol && (num <=? Z.of_nat (size (cities sol)))).
Proof.
  unfold _validate_connectivity, plan_val. cbn [py_iter bind].
  rewrite connectivity_loop_plan. cbn [bind].
  destruct (walkb graph start sol); [|reflexivity].
  rewrite union_empty_r_L.
  cbn [andb]. destruct (Z.ltb_spec (Z.of_nat (size (cities sol))) num);
    destruct (Z.leb_spec num (Z.of_nat (size (cities sol)))); try reflexivity; lia.
Qed.

End Connectivity.

(** C1. For an itinerary of 3-tuples of strings (in particular a non-empty
    one that ends at the end city) the connectivity check returns a verdict,
    and the verdict is true exactly when, walking the steps in order from
    the start city, every step's origin is the running current city and its
    (origin, destination, mode) triple is in the graph, and the set of all
    origins and destinations has at least the required number of cities.
    A step whose origin is not the running current city makes the verdict
    false, whatever the graph contains. *)
Theorem validate_connectivity_walk :
  ∀ (c : TravelConstraint) (sol : list (string * string * string)),
    ∃ b, _validate_connectivity (city_start c) (steps c) (graph c) (plan_val sol)
         = Ok b
      ∧ (b = true ↔
         (∀ i s, sol !! i = Some s →
                 s.1.1 = city_before (city_start c) sol i
                 ∧ edge (graph c) s.1.1 s.1.2 s.2)
         ∧ steps c ≤ Z.of_nat (size (cities sol)))
      ∧ ((∃ i s, sol !! i = Some s ∧ s.1.1 ≠ city_before (city_start c) sol i) →
         b = false).
Proof.
  intros c sol. eexists. split; [apply validate_connectivity_plan|].
  rewrite andb_true_iff, walkb_walk, Z.leb_le. split; [reflexivity|].
  intros (i & s & Hs & Hne).
  apply not_true_is_false. rewrite andb_true_iff, walkb_walk.
  intros [H _]. apply Hne, (H i s Hs).
Qed.

Lemma validate_connectivity_walk_witness :
  _validate_connectivity "Fresno" 2 sample_graph
    (plan_val [("Fresno", "Irvine", "motorhome"); ("Fresno", "Irvine", "motorhome")])
  = Ok false.
Proof.
  destruct (validate_connectivity_walk (sample_constraint 10)
              [("Fresno", "Irvine", "motorhome"); ("Fresno", "Irvine", "motorhome")])
    as (b & Hb & _ & Hbad).
  cbn [city_start steps graph sample_constraint] in Hb. rewrite Hb. f_equal.
  apply Hbad. exists 1%nat, ("Fresno", "Irvine", "motorhome").
  split; [reflexivity | discriminate].
Defined.

(** ** The travel scorer: budget *)

Section Budget.

Variable costs : gmap string Z.

(** One iteration: the [try] block either adds the cost found or gives up;
    a [TypeError] from [+] or from hashing the key is caught. *)
Lemma budget_step (x y z : pyval) (total : Z) :
  try_except
    (let* k12 := py_add x y in
     let* key := py_add k12 z in
     let* e := lookup_key key costs in
     match e with
     | Some (_, cost) => Ok (Some (total + cost))
     | None => Ok None
     end)
    TypeError (Ok None)
  = Ok (option_map (Z.add total) (step_cost costs (x, y, z))).
Proof.
  destruct x as [|x|a|l1|l1], y as [|y|d|l2|l2]; try reflexivity;
    destruct z as [|z|m|l3|l3]; try reflexivity.
  - cbn. destruct (costs !! ((a +:+ d) +:+ m)); reflexivity.
  - cbn. destruct (forallb hashable ((l1 ++ l2) ++ l3)); reflexivity.
Qed.

Lemma budget_loop_plan sol : ∀ total,
  budget_loop costs (map triple_val sol) total
  = Ok (option_map (Z.add total) (plan_cost costs sol)).
Proof.
  induction sol as [|[[x y] z] sol IH]; intros total.
  - cbn. f_equal. f_equal. lia.
  - cbn [map triple_val budget_loop py_iter bind fst snd plan_cost].
    rewrite budget_step. cbn [bind].
    destruct (step_cost costs (x, y, z)) as [c|]; cbn [option_map]; [|reflexivity].
    rewrite IH. destruct (plan_cost costs sol) as [r|]; cbn [option_map]; [|reflexivity].
    f_equal. f_equal. lia.
Qed.

Lemma validate_budget_plan budget sol :
  _validate_budget costs budget (VList (map triple_val sol))
  = Ok (match plan_cost costs sol with
        | Some total => total <=? budget
        | None => false
        end).
Proof.
  unfold _validate_budget. cbn [py_iter bind]. rewrite budget_loop_plan.
  destruct (plan_cost costs sol) as [total|]; cbn [bind option_map]; [|reflexivity].
  rewrite Z.add_0_l.
  destruct (Z.gtb_spec total budget); destruct (Z.leb_spec total budget);
    try reflexivity; lia.
Qed.




End Budget.



(** ** The travel scorer as a whole *)

Section TravelTotal.

Lemma py_eq_str_r (v : pyval) (x : string) : py_eq v (VStr x) = true → v = VStr x.
Proof.
  destruct v as [|z|s|l|l]; try discriminate.
  rewrite py_eq_str, String.eqb_eq. intros ->. reflexivity.
Qed.

Lemma py_in_list_is_str (v : pyval) (modes : list string) :
  py_in_list v modes = true → ∃ m, v = VStr m.
Proof.
  unfold py_in_list. intros H. apply existsb_exists in H as (x & _ & Hx).
  exists x. apply py_eq_str_r, Hx.
Qed.

(** Looking up a value that can be hashed never raises, and only a string
    is found. *)
Lemma lookup_key_hashable {V : Type} (v : pyval) (d : gmap string V) :
  hashable v = true →
  ∃ e, lookup_key v d = Ok e ∧ (is_Some e → ∃ s, v = VStr s).
Proof.
  intros Hv. destruct v as [|z|s|l|l]; cbn [lookup_key]; try rewrite Hv;
    try (exists None; split; [reflexivity | intros [? [=]]]).
  eexists. split; [reflexivity|]. intros _. eauto.
Qed.




Lemma seq_index_last (l : list pyval) (x : pyval) :
  last l = Some x → seq_index l (-1) = Ok x.
Proof.
  intros H. apply last_Some in H as [l' ->]. unfold seq_index.
  rewrite length_app. cbn [length].
  change (-1 <? 0) with true. cbv iota.
  replace (-1 + Z.of_nat (length l' + 1)) with (Z.of_nat (length l')) by lia.
  destruct (Z.ltb_spec (Z.of_nat (length l')) 0); [lia|].
  destruct (Z.leb_spec (Z.of_nat (length l' + 1)) (Z.of_nat (length l'))); [lia|].
  cbn [orb]. rewrite Nat2Z.id, nth_error_app2 by lia.
  rewrite Nat.sub_diag. reflexivity.
Qed.


End TravelTotal.




(** A field that cannot be hashed (here a list) raises in the membership
    test on the graph. *)
Lemma score_travel_eval_unhashable_field_raises :
  score_travel_eval (sample_constraint 10)
    (VList [VTuple [VList [VTuple [VStr "x"; VStr "y"]]; VStr "Irvine"; VStr "z"]])
  = Raise TypeError.
Proof. reflexivity. Qed.

(** ** Scoring the sentinels *)

Section Blank.

Lemma is_blank_lower_char (c : ascii) : is_blank (lower_char c) = is_blank c.
Proof.
  destruct c as [[] [] [] [] [] [] [] []]; reflexivity.
Qed.

Lemma lstrip_nonempty (p : ascii → bool) (s : string) (c : ascii) :
  In c (list_ascii_of_string s) → p c = false → lstrip p s ≠ EmptyString.
Proof.
  induction s as [|c' s IH]; cbn [list_ascii_of_string In lstrip]; [tauto|].
  intros [->|Hin] Hc.
  - rewrite Hc. discriminate.
  - destruct (p c'); [apply IH; assumption | discriminate].
Qed.

Lemma lstrip_head (p : ascii → bool) (s : string) :
  lstrip p s = EmptyString ∨ ∃ c t, lstrip p s = String c t ∧ p c = false.
Proof.
  induction s as [|c s IH]; cbn [lstrip]; [left; reflexivity|].
  destruct (p c) eqn:Hc; [exact IH|]. right. eauto.
Qed.

Lemma rstrip_head (p : ascii → bool) (c : ascii) (t : string) :
  p c = false → rstrip p (String c t) ≠ EmptyString.
Proof.
  intros Hc. cbn [rstrip]. destruct (rstrip p t); [rewrite Hc|]; discriminate.
Qed.

Lemma strip_chars_nonempty (p : ascii → bool) (s : string) (c : ascii) :
  In c (list_ascii_of_string s) → p c = false → strip_chars p s ≠ EmptyString.
Proof.
  intros Hin Hc. unfold strip_chars.
  destruct (lstrip_head p s) as [Hnil|(c' & t & -> & Hc')].
  - exfalso. exact (lstrip_nonempty p s c Hin Hc Hnil).
  - apply rstrip_head, Hc'.
Qed.

Lemma In_lower (s : string) (c : ascii) :
  In c (list_ascii_of_string s) → In (lower_char c) (list_ascii_of_string (lower s)).
Proof.
  induction s as [|c' s IH]; cbn [list_ascii_of_string lower In]; [tauto|].
  intros [->|H]; [left; reflexivity | right; apply IH, H].
Qed.

Lemma score_unpuzzle_eval_empty (s1 : string) (c : ascii) :
  In c (list_ascii_of_string s1) → c ≠ " "%char →
  score_unpuzzle_eval s1 EmptyString = false.
Proof.
  intros Hin Hc. unfold score_unpuzzle_eval. cbn [lower strip_chars lstrip rstrip].
  apply String.eqb_neq.
  apply (strip_chars_nonempty is_blank (lower s1) (lower_char c)).
  - apply In_lower, Hin.
  - rewrite is_blank_lower_char. unfold is_blank. apply Ascii.eqb_neq, Hc.
Qed.

End Blank.

Lemma score_count_eval_single (m : list (string * Z)) (v : pyval) :
  m ≠ [] → (∀ z, v ≠ VInt z) → score_count_eval m (VList [v]) = Ok false.
Proof.
  intros Hm Hv. destruct m as [|[key z] m]; [contradiction|].
  cbn. destruct (py_eq v (VInt z)) eqn:H; [|reflexivity].
  apply py_eq_int in H. destruct (Hv z H).
Qed.

Lemma py_eq_None_r (v : pyval) : v ≠ VNone → py_eq v VNone = false.
Proof. destruct v; try reflexivity. intros H. contradiction. Qed.

(** C9, as the code has it.  When the ground truth of a counting task has
    at least one value and the ground truth of a mathgap task is not None,
    scoring the sentinel of the entry's task (the sequence holding the empty
    string for counting, None for mathgap, the empty sequence for travel,
    the empty string for logic and for an unrecognised tag) yields false; so
    does the sequence holding None for counting.  The open-ended scorer,
    which [score_eval] does not dispatch to, scores the empty string false
    against a ground truth that has a character other than a space. *)
Theorem score_eval_sentinel_false :
  ∀ e : json_entry,
    informative_truth e →
    score_eval e (sentinel (task_kind_of (entry_task e))) = Ok false
    ∧ (task_kind_of (entry_task e) = Counting →
       score_eval e (VList [VNone]) = Ok false)
    ∧ (∀ (s1 : string) (c : ascii),
         In c (list_ascii_of_string s1) → c ≠ " "%char →
         score_unpuzzle_eval s1 EmptyString = false).
Proof.
  intros [t kk a]. unfold informative_truth, score_eval.
  cbn [entry_task entry_answer]. revert a.
  destruct (task_kind_of t); intros a Hinf; cbn [sentinel];
    (split; [|split; [|exact score_unpuzzle_eval_empty]]); try discriminate.
  - apply score_count_eval_single; [exact Hinf | discriminate].
  - intros _. apply score_count_eval_single; [exact Hinf | discriminate].
  - unfold score_mathgap_eval. rewrite py_eq_None_r by exact Hinf. reflexivity.
  - reflexivity.
  - reflexivity.
  - reflexivity.
Qed.

Lemma score_eval_sentinel_false_witness :
  score_eval {| entry_task := "word_count"; entry_k := Some 1;
                entry_answer := [("apple", 2)] |}
             (VList [VStr EmptyString]) = Ok false.
Proof.
  refine (proj1 (score_eval_sentinel_false
                   {| entry_task := "word_count"; entry_k := Some 1;
                      entry_answer := [("apple", 2)] |} _)).
  cbn. discriminate.
Defined.

(** With an empty ground-truth mapping, or with None as the ground truth
    of a mathgap task, the sentinel scores true. *)
Lemma score_eval_sentinel_true :
  score_eval {| entry_task := "character_count"; entry_k := Some 1;
                entry_answer := [] |}
             (sentinel (task_kind_of "character_count")) = Ok true
  ∧ score_eval {| entry_task := "mathgap_diverse"; entry_k := None;
                  entry_answer := VNone |}
               (sentinel (task_kind_of "mathgap_diverse")) = Ok true.
Proof. split; reflexivity. Qed.

(** The sentinels are what extraction returns on an empty response. *)
Lemma extract_eval_empty_response (literal_eval : string → result pyval)
    (e : json_entry) :
  (task_kind_of (entry_task e) = Counting → entry_k e = Some 1) →
  extract_eval literal_eval e EmptyString
  = Ok (sentinel (task_kind_of (entry_task e))).
Proof.
  intros Hk. unfold extract_eval.
  destruct (task_kind_of (entry_task e)); try reflexivity.
  rewrite Hk by reflexivity. reflexivity.
Qed.

(** ** Text and the matcher *)

Section Text.

Lemma append_nil_l (t : string) : EmptyString +:+ t = t.
Proof. reflexivity. Qed.

Lemma append_cons (c : ascii) (s t : string) :
  String c s +:+ t = String c (s +:+ t).
Proof. reflexivity. Qed.

Lemma append_nil_r (s : string) : s +:+ EmptyString = s.
Proof.
  induction s as [|c s IH]; [reflexivity|]. rewrite append_cons, IH. reflexivity.
Qed.

Lemma append_assoc (s t u : string) : (s +:+ t) +:+ u = s +:+ (t +:+ u).
Proof.
  induction s as [|c s IH]; [reflexivity|]. rewrite !append_cons, IH. reflexivity.
Qed.

Lemma length_append (s t : string) :
  String.length (s +:+ t) = (String.length s + String.length t)%nat.
Proof.
  induction s as [|c s IH]; [reflexivity|].
  rewrite append_cons. cbn [String.length]. rewrite IH. reflexivity.
Qed.

Lemma strip_prefix_Some (w s s' : string) :
  strip_prefix w s = Some s' ↔ s = w +:+ s'.
Proof.
  revert s. induction w as [|c w IH]; intros s; cbn [strip_prefix].
  - rewrite append_nil_l. split; [intros [= ->]; reflexivity | intros ->; reflexivity].
  - rewrite append_cons. destruct s as [|c' s].
    + split; discriminate.
    + destruct (Ascii.eqb_spec c c') as [->|Hne].
      * rewrite IH. split; [intros ->; reflexivity | intros [= ->]; reflexivity].
      * split; [discriminate | intros [= -> _]; contradiction].
Qed.

Lemma strip_prefix_app (w s : string) : strip_prefix w (w +:+ s) = Some s.
Proof. apply strip_prefix_Some. reflexivity. Qed.

Lemma contains_app (w p q : string) : contains w (p +:+ (w +:+ q)) = true.
Proof.
  induction p as [|c p IH].
  - rewrite append_nil_l. destruct (w +:+ q) eqn:E; cbn [contains];
      rewrite <- E, strip_prefix_app; reflexivity.
  - rewrite append_cons. cbn [contains]. rewrite IH.
    destruct (strip_prefix w _); reflexivity.
Qed.

Lemma contains_false (w s : string) :
  contains w s = false → ∀ p q, s ≠ p +:+ (w +:+ q).
Proof.
  intros H p q ->. rewrite contains_app in H. discriminate.
Qed.

Lemma consumed_one (x : ascii) (s : string) :
  consumed (String x s) s = String x EmptyString.
Proof.
  unfold consumed. cbn [String.length].
  replace (S (String.length s) - String.length s)%nat with 1%nat by lia.
  cbn [substring]. destruct s; reflexivity.
Qed.

End Text.

Section Matcher.

Lemma rmatch_lit (w s : string) (g : option string) (k : cont) :
  rmatch (lit w) s g k
  = match strip_prefix w s with
    | Some s' => k s' g
    | None => None
    end.
Proof.
  revert s. induction w as [|c w IH]; intros s; cbn [lit rmatch strip_prefix chr].
  - reflexivity.
  - destruct s as [|c' s]; [reflexivity|].
    destruct (Ascii.eqb c c'); [apply IH | reflexivity].
Qed.

(** A run of single characters hands its continuation a suffix of the
    text, with the group untouched. *)
Lemma star_loop_sat (gr : bool) (p : ascii → bool) (k : cont) (fuel : nat) :
  ∀ s g res,
    star_loop gr (rmatch (Sat p)) k fuel s g = Some res →
    ∃ skipped t, s = skipped +:+ t ∧ k t g = Some res.
Proof.
  induction fuel as [|fuel IH]; intros s g res; cbn [star_loop rmatch].
  - intros H. exists EmptyString, s. split; [reflexivity | exact H].
  - assert (Hagain :
      match s with
      | String c s' =>
          if p c
          then if (String.length s' <? String.length s)%nat
               then star_loop gr (rmatch (Sat p)) k fuel s' g else None
          else None
      | EmptyString => None
      end = Some res → ∃ skipped t, s = skipped +:+ t ∧ k t g = Some res).
    { destruct s as [|c s']; [discriminate|].
      destruct (p c); [|discriminate].
      destruct (String.length s' <? String.length (String c s'))%nat; [|discriminate].
      intros H. apply IH in H as (skipped & t & -> & Hk).
      exists (String c skipped), t. split; [reflexivity | exact Hk]. }
    assert (Hstop : k s g = Some res → ∃ skipped t, s = skipped +:+ t ∧ k t g = Some res).
    { intros H. exists EmptyString, s. split; [reflexivity | exact H]. }
    destruct gr.
    + destruct (match s with String _ _ => _ | EmptyString => _ end) as [x|] eqn:E.
      * intros [= <-]. apply Hagain. reflexivity.
      * exact Hstop.
    + destruct (k s g) as [x|] eqn:E.
      * intros [= <-]. apply Hstop. reflexivity.
      * exact Hagain.
Qed.

Lemma re_search_None (r : regex) (s : string) :
  (∀ skipped t, s = skipped +:+ t → match_here r t = None) →
  re_search r s = None.
Proof.
  induction s as [|c s IH]; intros H; cbn [re_search].
  - rewrite (H EmptyString EmptyString) by reflexivity. reflexivity.
  - rewrite (H EmptyString (String c s)) by reflexivity.
    rewrite IH; [reflexivity|].
    intros skipped t ->. apply (H (String c skipped)). reflexivity.
Qed.

Lemma re_search_leftmost (r : regex) (skipped t : string) (res : mres) :
  (∀ p1 p2, skipped = p1 +:+ p2 → p2 ≠ EmptyString →
            match_here r (p2 +:+ t) = None) →
  match_here r t = Some res →
  re_search r (skipped +:+ t) = Some (skipped, res).
Proof.
  induction skipped as [|c skipped IH]; intros Hleft Hm.
  - rewrite append_nil_l. destruct t; cbn [re_search]; rewrite Hm; reflexivity.
  - rewrite append_cons. cbn [re_search].
    assert (H0 : match_here r (String c skipped +:+ t) = None)
      by (apply (Hleft EmptyString); [reflexivity | discriminate]).
    rewrite append_cons in H0. rewrite H0.
    rewrite IH; [reflexivity | | exact Hm].
    intros p1 p2 -> Hp2. apply (Hleft (String c p1)); [reflexivity | exact Hp2].
Qed.

Lemma re_search_Some (r : regex) (s : string) :
  ∀ skipped res,
    re_search r s = Some (skipped, res) →
    ∃ t, s = skipped +:+ t ∧ match_here r t = Some res
         ∧ ∀ p1 t', s = p1 +:+ t' →
                    (String.length p1 < String.length skipped)%nat →
                    match_here r t' = None.
Proof.
  induction s as [|c s IH]; intros skipped res; cbn [re_search].
  - destruct (match_here r EmptyString) as [res'|] eqn:E; [|discriminate].
    intros [= <- <-]. exists EmptyString. split; [reflexivity|]. split; [exact E|].
    intros p1 t' _ Hlt. cbn [String.length] in Hlt. lia.
  - destruct (match_here r (String c s)) as [res'|] eqn:E.
    + intros [= <- <-]. exists (String c s). split; [reflexivity|]. split; [exact E|].
      intros p1 t' _ Hlt. cbn [String.length] in Hlt. lia.
    + destruct (re_search r s) as [[skipped' res']|]; [|discriminate].
      intros [= <- <-]. destruct (IH skipped' res' eq_refl) as (t & -> & Hm & Hleft).
      exists t. split; [reflexivity|]. split; [exact Hm|].
      intros p1 t' Heq Hlt. destruct p1 as [|c' p1].
      * rewrite append_nil_l in Heq. subst t'. exact E.
      * rewrite append_cons in Heq. injection Heq as -> Heq.
        apply (Hleft p1 t' Heq). cbn [String.length] in Hlt. lia.
Qed.

End Matcher.

(** ** The fuel of the matcher *)

Section Fuel.

(** The matcher only looks at what its continuation returns. *)
Lemma star_loop_ext (gr : bool)
    (body : string → option string → cont → option mres) (k1 k2 : cont) :
  (∀ s g c1 c2, (∀ s' g', c1 s' g' = c2 s' g') → body s g c1 = body s g c2) →
  (∀ s g, k1 s g = k2 s g) →
  ∀ fuel s g, star_loop gr body k1 fuel s g = star_loop gr body k2 fuel s g.
Proof.
  intros Hbody Hk. induction fuel as [|fuel IH]; intros s g; cbn [star_loop].
  - apply Hk.
  - rewrite (Hk s g).
    rewrite (Hbody s g _
               (fun s' g' =>
                  if (String.length s' <? String.length s)%nat
                  then star_loop gr body k2 fuel s' g' else None)).
    + reflexivity.
    + intros s' g'. destruct (String.length s' <? String.length s)%nat;
        [apply IH | reflexivity].
Qed.

Lemma rmatch_ext (r : regex) :
  ∀ s g k1 k2, (∀ s' g', k1 s' g' = k2 s' g') →
               rmatch r s g k1 = rmatch r s g k2.
Proof.
  induction r as [p| |r1 IH1 r2 IH2|gr r IH|r IH|r IH|]; intros s g k1 k2 Hk;
    cbn [rmatch].
  - destruct s as [|c s]; [reflexivity|]. destruct (p c); [apply Hk | reflexivity].
  - apply Hk.
  - apply IH1. intros s' g'. apply IH2, Hk.
  - apply star_loop_ext; [exact IH | exact Hk].
  - rewrite (IH s g k1 k2 Hk), (Hk s g). reflexivity.
  - apply IH. intros s' g'. apply Hk.
  - rewrite (Hk s g). reflexivity.
Qed.

(** Iterations consume text, so any amount of fuel above the length of the
    text gives the same result: the fuel of [rmatch] never runs out. *)
Lemma star_loop_fuel (gr : bool) (r : regex) (k : cont) :
  ∀ n m s g,
    (String.length s < n)%nat → (String.length s < m)%nat →
    star_loop gr (rmatch r) k n s g = star_loop gr (rmatch r) k m s g.
Proof.
  induction n as [|n IH]; intros m s g Hn Hm; [lia|].
  destruct m as [|m]; [lia|]. cbn [star_loop].
  rewrite (rmatch_ext r s g _
             (fun s' g' =>
                if (String.length s' <? String.length s)%nat
                then star_loop gr (rmatch r) k m s' g' else None)).
  - reflexivity.
  - intros s' g'. destruct (Nat.ltb_spec (String.length s') (String.length s));
      [apply IH; lia | reflexivity].
Qed.

(** A match ends at or after the position it started from. *)
Lemma star_loop_rest (gr : bool)
    (body : string → option string → cont → option mres) (k : cont) :
  (∀ s g c res, body s g c = Some res →
                ∃ s' g', (String.length s' <= String.length s)%nat
                         ∧ c s' g' = Some res) →
  ∀ fuel s g res,
    star_loop gr body k fuel s g = Some res →
    ∃ s' g', (String.length s' <= String.length s)%nat ∧ k s' g' = Some res.
Proof.
  intros Hbody. induction fuel as [|fuel IH]; intros s g res; cbn [star_loop].
  - intros H. exists s, g. split; [lia | exact H].
  - set (again := body s g _).
    assert (Hagain : again = Some res →
      ∃ s' g', (String.length s' <= String.length s)%nat ∧ k s' g' = Some res).
    { intros H. apply Hbody in H as (s1 & g1 & Hlen & H).
      destruct (String.length s1 <? String.length s)%nat; [|discriminate].
      apply IH in H as (s2 & g2 & Hlen2 & H). exists s2, g2. split; [lia | exact H]. }
    assert (Hstop : k s g = Some res →
      ∃ s' g', (String.length s' <= String.length s)%nat ∧ k s' g' = Some res).
    { intros H. exists s, g. split; [lia | exact H]. }
    destruct gr.
    + destruct again as [x|]; [intros [= <-]; apply Hagain; reflexivity | exact Hstop].
    + destruct (k s g) as [x|]; [intros [= <-]; apply Hstop; reflexivity | exact Hagain].
Qed.

Lemma rmatch_rest (r : regex) :
  ∀ s g k res,
    rmatch r s g k = Some res →
    ∃ s' g', (String.length s' <= String.length s)%nat ∧ k s' g' = Some res.
Proof.
  induction r as [p| |r1 IH1 r2 IH2|gr r IH|r IH|r IH|]; intros s g k res;
    cbn [rmatch].
  - destruct s as [|c s]; [discriminate|]. destruct (p c); [|discriminate].
    intros H. exists s, g. split; [cbn [String.length]; lia | exact H].
  - intros H. exists s, g. split; [lia | exact H].
  - intros H. apply IH1 in H as (s1 & g1 & Hlen1 & H).
    apply IH2 in H as (s2 & g2 & Hlen2 & H). exists s2, g2. split; [lia | exact H].
  - apply star_loop_rest. exact IH.
  - destruct (rmatch r s g k) as [x|] eqn:E.
    + intros [= <-]. apply IH in E. exact E.
    + intros H. exists s, g. split; [lia | exact H].
  - intros H. apply IH in H as (s1 & g1 & Hlen & H). eauto.
  - destruct (at_end s); [|discriminate]. intros H. exists s, g. split; [lia | exact H].
Qed.

Lemma match_here_rest (r : regex) (s rest : string) (g : option string) :
  match_here r s = Some (rest, g) → (String.length rest <= String.length s)%nat.
Proof.
  intros H. apply rmatch_rest in H as (s' & g' & Hlen & [= <- <-]). exact Hlen.
Qed.

Lemma drop_string_app (skipped t : string) :
  drop_string (String.length skipped) (skipped +:+ t) = t.
Proof.
  unfold drop_string. rewrite length_append.
  replace (String.length skipped + String.length t - String.length skipped)%nat
    with (String.length t) by lia.
  induction skipped as [|c skipped IH].
  - rewrite append_nil_l. cbn [String.length].
    clear. induction t as [|c t IH]; [reflexivity|].
    cbn [String.length substring]. rewrite IH. reflexivity.
  - rewrite append_cons. cbn [String.length substring]. exact IH.
Qed.

(** Scanning resumes strictly further in the text. *)
Lemma resume_shorter (r : regex) (s skipped rest : string) (g : option string)
    (stepped s' : string) :
  re_search r s = Some (skipped, (rest, g)) →
  resume (drop_string (String.length skipped) s) rest = Some (stepped, s') →
  (String.length s' < String.length s)%nat.
Proof.
  intros Hs Hr. apply re_search_Some in Hs as (t & -> & Hm & _).
  rewrite drop_string_app in Hr. apply match_here_rest in Hm.
  rewrite length_append. unfold resume in Hr.
  destruct (Nat.ltb_spec (String.length rest) (String.length t)).
  - injection Hr as _ <-. lia.
  - destruct rest as [|c rest']; [discriminate|]. injection Hr as _ <-.
    cbn [String.length] in *. lia.
Qed.


Lemma sub_loop_fuel (r : regex) (repl : option string → string) :
  ∀ n m s,
    (String.length s < n)%nat → (String.length s < m)%nat →
    sub_loop n r repl s = sub_loop m r repl s.
Proof.
  induction n as [|n IH]; intros m s Hn Hm; [lia|].
  destruct m as [|m]; [lia|]. cbn [sub_loop].
  destruct (re_search r s) as [[skipped [rest g]]|] eqn:Hs; [|reflexivity].
  destruct (resume _ rest) as [[stepped s']|] eqn:Hr; [|reflexivity].
  pose proof (resume_shorter _ _ _ _ _ _ _ Hs Hr).
  do 3 f_equal. apply IH; lia.
Qed.

End Fuel.

(** ** Logic extraction *)

Section Logic.

Lemma contains_suffix (w p t : string) :
  contains w (p +:+ t) = false → contains w t = false.
Proof.
  induction p as [|c p IH]; [rewrite append_nil_l; trivial|].
  rewrite append_cons. cbn [contains].
  destruct (strip_prefix w (String c (p +:+ t))); [discriminate | exact IH].
Qed.

Lemma match_here_boxed (t : string) :
  match_here extract_answer_boxed t
  = match strip_prefix "boxed{" t with
    | Some (String x (String c rest)) =>
        if is_A_to_D x && Ascii.eqb "}" c
        then Some (rest, Some (String x EmptyString)) else None
    | _ => None
    end.
Proof.
  unfold match_here, extract_answer_boxed, A_to_D, chr. cbn [seq rmatch].
  rewrite rmatch_lit.
  destruct (strip_prefix "boxed{" t) as [[|x [|c rest]]|]; try reflexivity.
  - destruct (is_A_to_D x); reflexivity.
  - destruct (is_A_to_D x); [|reflexivity].
    destruct (Ascii.eqb "}" c); [|reflexivity].
    cbn [andb]. unfold accept. rewrite consumed_one. reflexivity.
Qed.

Lemma match_here_boxed_Some (t : string) (res : mres) :
  match_here extract_answer_boxed t = Some res →
  ∃ x rest, is_A_to_D x = true ∧ t = "boxed{" +:+ String x (String "}" rest).
Proof.
  rewrite match_here_boxed.
  destruct (strip_prefix "boxed{" t) as [[|x [|c rest]]|] eqn:E; try discriminate.
  destruct (is_A_to_D x) eqn:Hx; [|discriminate].
  destruct (Ascii.eqb_spec "}" c) as [<-|]; [|discriminate].
  intros _. exists x, rest. split; [exact Hx|].
  apply strip_prefix_Some, E.
Qed.

Lemma match_here_boxed_marker (x : ascii) (post : string) :
  is_A_to_D x = true →
  match_here extract_answer_boxed ("boxed{" +:+ String x ("}" +:+ post))
  = Some (post, Some (String x EmptyString)).
Proof.
  intros Hx. rewrite match_here_boxed, strip_prefix_app.
  change ("}" +:+ post) with (String "}" post). rewrite Hx. reflexivity.
Qed.

Lemma match_here_html_None (t : string) :
  contains "<answer>" t = false → match_here extract_answer_html t = None.
Proof.
  intros Hno. destruct (match_here extract_answer_html t) as [res|] eqn:E;
    [exfalso | reflexivity].
  unfold match_here, extract_answer_html, dot in E. cbn [seq rmatch] in E.
  apply star_loop_sat in E as (skipped & t' & -> & E).
  rewrite rmatch_lit in E.
  destruct (strip_prefix "<answer>" t') as [rest|] eqn:Ht; [|discriminate].
  apply strip_prefix_Some in Ht as ->.
  rewrite contains_app in Hno. discriminate.
Qed.

Lemma re_search_html_None (response : string) :
  contains "<answer>" response = false →
  re_search extract_answer_html response = None.
Proof.
  intros Hno. apply re_search_None. intros skipped t ->.
  apply match_here_html_None. eapply contains_suffix, Hno.
Qed.

Lemma re_search_boxed_leftmost (pre post : string) (x : ascii) :
  is_A_to_D x = true →
  (∀ pre' post' x',
     is_A_to_D x' = true →
     pre +:+ "boxed{" +:+ String x ("}" +:+ post)
     = pre' +:+ "boxed{" +:+ String x' ("}" +:+ post') →
     (String.length pre <= String.length pre')%nat) →
  re_search extract_answer_boxed (pre +:+ "boxed{" +:+ String x ("}" +:+ post))
  = Some (pre, (post, Some (String x EmptyString))).
Proof.
  intros Hx Hleft. apply re_search_leftmost.
  - intros p1 p2 -> Hp2.
    destruct (match_here extract_answer_boxed _) as [res|] eqn:E; [exfalso | reflexivity].
    apply match_here_boxed_Some in E as (x' & rest & Hx' & E).
    specialize (Hleft p1 rest x' Hx').
    rewrite append_assoc, E in Hleft. specialize (Hleft eq_refl).
    rewrite length_append in Hleft.
    destruct p2; [contradiction | cbn [String.length] in Hleft; lia].
  - apply match_here_boxed_marker, Hx.
Qed.

Lemma re_search_boxed_Some (response skipped : string) (res : mres) :
  re_search extract_answer_boxed response = Some (skipped, res) →
  ∀ pre' post' x',
    is_A_to_D x' = true →
    response = pre' +:+ "boxed{" +:+ String x' ("}" +:+ post') →
    (String.length skipped <= String.length pre')%nat.
Proof.
  intros H pre' post' x' Hx' Heq.
  apply re_search_Some in H as (t & _ & _ & Hleft).
  destruct (Nat.le_gt_cases (String.length skipped) (String.length pre'))
    as [Hle|Hlt]; [exact Hle | exfalso].
  specialize (Hleft pre' _ Heq Hlt).
  rewrite match_here_boxed_marker in Hleft by exact Hx'. discriminate.
Qed.

End Logic.

(** C7, as the code has it.  Logic extraction returns the capture of the
    first pattern that matches, in the order answer tag, boxed marker,
    [answer] followed by a letter.  For a response without the text of an
    answer tag, the result is the letter of the leftmost boxed marker that
    holds a letter from A to D: a response in which [boxed{B}] is that
    marker yields B, whatever [answer: A] phrase it also contains. *)
Theorem extract_logic_eval_priority :
  ∀ response : string,
    (∀ m, re_search extract_answer_html response = Some m →
          extract_logic_eval response = group1 m)
    ∧ (∀ m, re_search extract_answer_html response = None →
            re_search extract_answer_boxed response = Some m →
            extract_logic_eval response = group1 m)
    ∧ (∀ m, re_search extract_answer_html response = None →
            re_search extract_answer_boxed response = None →
            re_search extract_answer_sentence response = Some m →
            extract_logic_eval response = group1 m)
    ∧ (∀ (pre post : string) (x : ascii),
         response = pre +:+ "boxed{" +:+ String x ("}" +:+ post) →
         is_A_to_D x = true →
         (∀ pre' post' x',
            is_A_to_D x' = true →
            response = pre' +:+ "boxed{" +:+ String x' ("}" +:+ post') →
            (String.length pre <= String.length pre')%nat) →
         contains "<answer>" response = false →
         extract_logic_eval response = VStr (String x EmptyString)).
Proof.
  intros response. unfold extract_logic_eval, compiled_res. cbn [logic_loop].
  split; [|split; [|split]].
  - intros m ->. reflexivity.
  - intros m -> ->. reflexivity.
  - intros m -> -> ->. reflexivity.
  - intros pre post x -> Hx Hleft Hno.
    rewrite re_search_html_None by exact Hno.
    rewrite re_search_boxed_leftmost by assumption. reflexivity.
Qed.

Lemma extract_logic_eval_priority_witness :
  extract_logic_eval "The answer: A, so \boxed{B}." = VStr "B".
Proof.
  refine (proj2 (proj2 (proj2 (extract_logic_eval_priority
            "The answer: A, so \boxed{B}.")))
            "The answer: A, so \" "." "B"%char eq_refl eq_refl _ eq_refl).
  exact (re_search_boxed_Some "The answer: A, so \boxed{B}."
           "The answer: A, so \" ("."%string, Some "B"%string) eq_refl).
Defined.

(** A response that contains [boxed{B}], [answer: A] and no answer tag, and
    in which another boxed marker comes first: the result is that marker's
    letter, not B. *)
Lemma extract_logic_eval_earlier_boxed_marker :
  contains "boxed{B}" "boxed{A} boxed{B} answer: A" = true
  ∧ contains "answer: A" "boxed{A} boxed{B} answer: A" = true
  ∧ contains "<answer>" "boxed{A} boxed{B} answer: A" = false
  ∧ extract_logic_eval "boxed{A} boxed{B} answer: A" = VStr "A".
Proof. repeat split; vm_compute; reflexivity. Qed.

(** ** Open-ended extraction *)

Section Unpuzzle.

Variable response : string.

Lemma unpuzzle_loop_cons (r : regex) (res : list regex) :
  unpuzzle_loop (r :: res) response
  = match first_acceptable (re_findall r response) with
    | Some s => s
    | None => unpuzzle_loop res response
    end.
Proof.
  cbn [unpuzzle_loop]. destruct (re_findall r response); reflexivity.
Qed.

(** A pattern without an acceptable capture is passed over. *)
Lemma unpuzzle_loop_skip (skipped res : list regex) :
  (∀ r, r ∈ skipped → first_acceptable (re_findall r response) = None) →
  unpuzzle_loop (skipped ++ res) response = unpuzzle_loop res response.
Proof.
  induction skipped as [|r skipped IH]; intros H; [reflexivity|].
  cbn [app]. rewrite unpuzzle_loop_cons, (H r) by (left).
  apply IH. intros r' Hr'. apply H. right. exact Hr'.
Qed.

Lemma unpuzzle_loop_none (res : list regex) :
  (∀ r, r ∈ res → first_acceptable (re_findall r response) = None) →
  unpuzzle_loop res response = EmptyString.
Proof.
  intros H. rewrite <- (app_nil_r res). rewrite unpuzzle_loop_skip by exact H.
  reflexivity.
Qed.

End Unpuzzle.

Lemma first_acceptable_Some (matches : list string) (s : string) :
  first_acceptable matches = Some s ↔
  ∃ i, matches !! i = Some s ∧ is_placeholder s = false
       ∧ ∀ j t, (j < i)%nat → matches !! j = Some t → is_placeholder t = true.
Proof.
  induction matches as [|t matches IH]; cbn [first_acceptable].
  - split; [discriminate | intros (i & H & _); destruct i; discriminate].
  - destruct (is_placeholder t) eqn:Ht; cbn [negb].
    + rewrite IH. split.
      * intros (i & Hi & Hs & Hbefore). exists (S i). split; [exact Hi|].
        split; [exact Hs|]. intros [|j] u Hj Hu.
        -- injection Hu as <-. exact Ht.
        -- apply (Hbefore j); [lia | exact Hu].
      * intros ([|i] & Hi & Hs & Hbefore).
        -- injection Hi as ->. congruence.
        -- exists i. split; [exact Hi|]. split; [exact Hs|].
           intros j u Hj Hu. apply (Hbefore (S j)); [lia | exact Hu].
    + split.
      * intros [= <-]. exists 0%nat. split; [reflexivity|]. split; [exact Ht|].
        intros j u Hj. lia.
      * intros ([|i] & Hi & Hs & Hbefore).
        -- injection Hi as ->. reflexivity.
        -- specialize (Hbefore 0%nat t ltac:(lia) eq_refl). congruence.
Qed.




(** ** Counting and travel extraction *)

(** C4: the code raises where the description promises a sentinel.  For a
    counting task with [k] other than 1 and a response in which the
    multi-answer pattern does not match, [extract_count_eval], and
    [extract_eval] with it, raise [UnboundLocalError]: the local [ans] is
    only assigned on the [k == 1] path. *)
Theorem extract_count_eval_unbound_answer :
  ∀ (literal_eval : string → result pyval) (e : json_entry)
    (response : string) (k : Z),
    task_kind_of (entry_task e) = Counting →
    entry_k e = Some k →
    k ≠ 1 →
    re_search count_multi_re response = None →
    extract_count_eval response k = Raise UnboundLocalError
    ∧ extract_eval literal_eval e response = Raise UnboundLocalError.
Proof.
  intros literal_eval e response k Hkind Hk Hne Hnone.
  assert (H : extract_count_eval response k = Raise UnboundLocalError).
  { unfold extract_count_eval. destruct (Z.eqb_spec k 1) as [->|_]; [contradiction|].
    rewrite Hnone. reflexivity. }
  split; [exact H|]. unfold extract_eval. rewrite Hkind, Hk. exact H.
Qed.

Lemma extract_count_eval_unbound_answer_witness :
  extract_count_eval "I counted three and four." 2 = Raise UnboundLocalError
  ∧ extract_eval literal_eval_sample
      {| entry_task := "word_count"; entry_k := Some 2;
         entry_answer := [("apple", 3); ("pear", 4)] |}
      "I counted three and four." = Raise UnboundLocalError.
Proof.
  apply (extract_count_eval_unbound_answer literal_eval_sample
           {| entry_task := "word_count"; entry_k := Some 2;
              entry_answer := [("apple", 3); ("pear", 4)] |}).
  - reflexivity.
  - reflexivity.
  - discriminate.
  - vm_compute. reflexivity.
Defined.

(** C5: the code raises where the description promises an empty plan.  Only
    [SyntaxError] is caught: a block that evaluates to an empty sequence
    raises [IndexError], one that evaluates to a number raises [TypeError],
    and one that is not a literal raises the [ValueError] of
    [ast.literal_eval]. *)
Theorem extract_travel_eval_uncaught_errors :
  ∀ literal_eval : string → result pyval,
    (literal_eval "[]" = Ok (VList []) →
     extract_travel_eval literal_eval (block "[]") = Raise IndexError)
    ∧ (literal_eval "5" = Ok (VInt 5) →
       extract_travel_eval literal_eval (block "5") = Raise TypeError)
    ∧ (literal_eval "foo" = Raise ValueError →
       extract_travel_eval literal_eval (block "foo") = Raise ValueError).
Proof.
  intros literal_eval.
  assert (Hblock : ∀ body,
    body = "[]" ∨ body = "5" ∨ body = "foo" →
    extract_travel_eval literal_eval (block body)
    = try_except
        (let* travel_plan := literal_eval body in
         let* first := py_getitem travel_plan 0 in
         let* travel_plan :=
           if is_tuple first then py_iter travel_plan else Ok [travel_plan] in
         if forallb is_3_tuple travel_plan
         then Ok (VList travel_plan) else Ok (VList []))
        SyntaxError (Ok (VList []))).
  { intros body [->|[->| ->]]; reflexivity. }
  split; [|split]; intros H; rewrite Hblock by tauto; rewrite H; reflexivity.
Qed.

Lemma extract_travel_eval_uncaught_errors_witness :
  extract_travel_eval literal_eval_sample (block "[]") = Raise IndexError
  ∧ extract_travel_eval literal_eval_sample (block "5") = Raise TypeError
  ∧ extract_travel_eval literal_eval_sample (block "foo") = Raise ValueError.
Proof.
  destruct (extract_travel_eval_uncaught_errors literal_eval_sample)
    as (H1 & H2 & H3).
  split; [apply H1; reflexivity | split; [apply H2 | apply H3]; reflexivity].
Defined.

(** * Further properties of the two modules *)

(** ** The travel scorer on whole itineraries *)

Section TravelScore.

Lemma step_val_triple_val (sol : list (string * string * string)) :
  map step_val sol = map triple_val (map fields_val sol).
Proof. rewrite map_map. reflexivity. Qed.

Lemma last_map_step (sol : list (string * string * string)) s :
  last sol = Some s → last (map step_val sol) = Some (step_val s).
Proof.
  intros H. apply last_Some in H as [sol' ->]. rewrite map_app. apply last_snoc.
Qed.


(** The verdict on an itinerary of string triples, as one boolean. *)
Lemma score_travel_eval_plan (c : TravelConstraint)
    (sol : list (string * string * string)) :
  score_travel_eval c (plan_val sol)
  = Ok (match last sol with
        | Some s => String.eqb s.1.2 (city_end c)
        | None => false
        end
        && (walkb (graph c) (city_start c) sol
            && (steps c <=? Z.of_nat (size (cities sol))))
        && match plan_cost (costs c) (map fields_val sol) with
           | Some total => total <=? total_budget c
           | None => false
           end).
Proof.
  unfold score_travel_eval, plan_val.
  destruct sol as [|s0 sol0] eqn:Hsol; [reflexivity|].
  rewrite <- Hsol. assert (Hne : sol ≠ []) by (subst; discriminate). clear Hsol.
  replace (py_truthy (VList (map step_val sol))) with true
    by (destruct sol; [contradiction | reflexivity]).
  cbn [negb py_getitem].
  destruct (last sol) as [s|] eqn:Hs; [|apply last_None in Hs; contradiction].
  rewrite (seq_index_last _ (step_val s)) by (apply last_map_step, Hs).
  cbn [bind step_val py_getitem]. change (seq_index _ 1) with (Ok (VStr s.1.2)).
  cbn [bind]. rewrite py_eq_str.
  destruct (String.eqb s.1.2 (city_end c)); cbn [negb andb]; [|reflexivity].
  change (VList (map step_val sol)) with (plan_val sol).
  rewrite validate_connectivity_plan. cbn [bind].
  destruct (walkb _ _ _ && _); cbn [negb andb]; [|reflexivity].
  unfold plan_val. rewrite step_val_triple_val, validate_budget_plan. cbn [bind].
  destruct (match plan_cost _ _ with Some _ => _ | None => _ end); reflexivity.
Qed.

End TravelScore.



(** X2. An itinerary accepted under a constraint stays accepted when the
    budget is raised or the required number of distinct cities is lowered,
    the cities, graph and cost table being the same. *)
Theorem score_travel_eval_relaxed_constraint :
  ∀ (c c' : TravelConstraint) (sol : list (string * string * string)),
    city_start c' = city_start c → city_end c' = city_end c →
    graph c' = graph c → costs c' = costs c →
    total_budget c ≤ total_budget c' → steps c' ≤ steps c →
    score_travel_eval c (plan_val sol) = Ok true →
    score_travel_eval c' (plan_val sol) = Ok true.
Proof.
  intros c c' sol Hs He Hg Hc Hb Hn. rewrite !score_travel_eval_plan.
  rewrite Hs, He, Hg, Hc. intros [= H]. f_equal.
  rewrite !andb_true_iff in *. destruct H as [[Hend [Hwalk Hsize]] Hcost].
  repeat split; try assumption.
  - apply Z.leb_le. apply Z.leb_le in Hsize. lia.
  - destruct (plan_cost _ _); [|discriminate].
    apply Z.leb_le. apply Z.leb_le in Hcost. lia.
Qed.

Lemma score_travel_eval_relaxed_constraint_witness :
  score_travel_eval (sample_constraint 12)
    (plan_val [("Fresno", "Irvine", "motorhome")]) = Ok true.
Proof.
  apply (score_travel_eval_relaxed_constraint (sample_constraint 10)
           (sample_constraint 12));
    try reflexivity; cbn [total_budget steps sample_constraint]; lia.
Defined.

Section Bound.

Lemma size_union_bound (X Y : gset string) : (size (X ∪ Y) <= size X + size Y)%nat.
Proof.
  rewrite size_union_alt. apply Nat.add_le_mono_l, subseteq_size.
  apply elem_of_subseteq. intros x Hx. apply elem_of_difference in Hx. tauto.
Qed.

(** Along a walk every origin is the previous destination, so each step
    adds at most one city to the start city. *)
Lemma walk_size graph (sol : list (string * string * string)) :
  ∀ current, walkb graph current sol = true →
             (size ({[current]} ∪ cities sol) <= 1 + length sol)%nat.
Proof.
  induction sol as [|s sol IH]; intros current; cbn [walkb length].
  - intros _. etransitivity; [apply size_union_bound|].
    unfold cities. cbn. rewrite size_singleton, size_empty. lia.
  - rewrite !andb_true_iff, String.eqb_eq. intros [[Hcur _] Hwalk].
    rewrite cities_cons, Hcur.
    replace ({[current]} ∪ ({[current]} ∪ ({[s.1.2]} ∪ cities sol)))
      with ({[current]} ∪ ({[s.1.2]} ∪ cities sol) : gset string)
      by (apply set_eq; intros x; rewrite !elem_of_union; tauto).
    etransitivity; [apply size_union_bound|].
    rewrite size_singleton. specialize (IH _ Hwalk). lia.
Qed.

Lemma walk_first graph current (sol : list (string * string * string)) :
  walkb graph current sol = true → ∀ s, head sol = Some s → s.1.1 = current.
Proof.
  destruct sol as [|s0 sol]; [discriminate 2|]. cbn [walkb head].
  rewrite !andb_true_iff, String.eqb_eq. intros [[H _] _] s [= <-]. exact H.
Qed.

End Bound.

(** X3. An accepted itinerary starts at the start city and ends at the end
    city, and the required number of distinct cities is at most its number
    of steps plus one. *)
Theorem score_travel_eval_accepted_shape :
  ∀ (c : TravelConstraint) (sol : list (string * string * string)),
    score_travel_eval c (plan_val sol) = Ok true →
    (∃ s, head sol = Some s ∧ s.1.1 = city_start c)
    ∧ (∃ s, last sol = Some s ∧ s.1.2 = city_end c)
    ∧ steps c ≤ Z.of_nat (length sol) + 1.
Proof.
  intros c sol. rewrite score_travel_eval_plan. intros [= H].
  rewrite !andb_true_iff in H. destruct H as [[Hend [Hwalk Hsize]] _].
  destruct (last sol) as [s|] eqn:Hs; [|discriminate].
  split; [|split].
  - destruct sol as [|s0 sol]; [discriminate Hs|]. exists s0.
    split; [reflexivity|]. apply (walk_first _ _ _ Hwalk). reflexivity.
  - exists s. split; [reflexivity|]. apply String.eqb_eq, Hend.
  - apply Z.leb_le in Hsize. pose proof (walk_size _ _ _ Hwalk) as Hb.
    assert ((size (cities sol) <= size ({[city_start c]} ∪ cities sol))%nat).
    { apply subseteq_size, union_subseteq_r. }
    lia.
Qed.

Lemma score_travel_eval_accepted_shape_witness :
  (∃ s, head [("Fresno", "Irvine", "motorhome")] = Some s ∧ s.1.1 = "Fresno")
  ∧ (∃ s, last [("Fresno", "Irvine", "motorhome")] = Some s ∧ s.1.2 = "Irvine")
  ∧ 2 ≤ Z.of_nat (length [("Fresno", "Irvine", "motorhome")]) + 1.
Proof.
  apply (score_travel_eval_accepted_shape (sample_constraint 10)
           [("Fresno", "Irvine", "motorhome")]).
  reflexivity.
Defined.

(** ** Travel extraction followed by scoring *)

Lemma extract_travel_eval_3_tuples :
  ∀ (literal_eval : string → result pyval) (response : string) (v : pyval),
    extract_travel_eval literal_eval response = Ok v →
    ∃ l, v = VList l ∧ Forall (fun item => is_3_tuple item = true) l.
Proof.
  intros literal_eval response v. unfold extract_travel_eval. cbv zeta.
  destruct (last (re_findall code_block_re response)) as [blk|];
    [|intros [= <-]; exists []; split; [reflexivity | constructor]].
  destruct (literal_eval _) as [plan|e]; cbn [bind try_except].
  - destruct (py_getitem plan 0) as [first|e]; cbn [bind try_except];
      [|destruct (exn_eqb e SyntaxError);
        [intros [= <-]; exists []; split; [reflexivity | constructor] | discriminate]].
    destruct (if is_tuple first then py_iter plan else Ok [plan]) as [l|e];
      cbn [bind try_except];
      [|destruct (exn_eqb e SyntaxError);
        [intros [= <-]; exists []; split; [reflexivity | constructor] | discriminate]].
    destruct (forallb is_3_tuple l) eqn:Hall; intros [= <-].
    + exists l. split; [reflexivity|]. apply Forall_forall. intros item Hin.
      rewrite forallb_forall in Hall. apply Hall, list_elem_of_In, Hin.
    + exists []. split; [reflexivity | constructor].
  - destruct (exn_eqb e SyntaxError);
      [intros [= <-]; exists []; split; [reflexivity | constructor] | discriminate].
Qed.



Section Pipeline.

Lemma lookup_key_cases {V : Type} (v : pyval) (d : gmap string V) :
  (∃ e, lookup_key v d = Ok e ∧ (is_Some e → ∃ s, v = VStr s))
  ∨ (lookup_key v d = Raise TypeError ∧ hashable v = false).
Proof.
  destruct (hashable v) eqn:Hv.
  - left. apply lookup_key_hashable, Hv.
  - right. split; [|reflexivity].
    destruct v; cbn [lookup_key]; try rewrite Hv; try reflexivity. discriminate Hv.
Qed.

Lemma connectivity_loop_3_tuples graph (l : list pyval) :
  Forall (fun item => is_3_tuple item = true) l →
  ∀ visited current,
    (∃ r, connectivity_loop graph l visited current = Ok r
          ∧ (is_Some r → ∃ sol, l = map step_val sol))
    ∨ (connectivity_loop graph l visited current = Raise TypeError
       ∧ ∃ fs v, VTuple fs ∈ l ∧ v ∈ fs ∧ hashable v = false).
Proof.
  induction 1 as [|item l Hitem _ IH]; intros visited current.
  - left. eexists. split; [reflexivity|]. intros _. exists []. reflexivity.
  - destruct item as [| | |fs|]; try discriminate Hitem.
    destruct fs as [|x [|y [|z [|w fs]]]]; try discriminate Hitem.
    cbn [connectivity_loop py_len py_iter bind length].
    change (Z.of_nat 3 =? 3) with true. cbn [negb].
    destruct (lookup_key_cases x graph) as [(e1 & -> & Hx)|[-> Hx]]; cbn [bind];
      [|right; split; [reflexivity|]; exists [x; y; z], x;
        repeat split; [left | left | exact Hx]].
    destruct e1 as [[c1 reachable]|];
      [|left; exists None; split; [reflexivity | intros [? [=]]]].
    destruct Hx as [a ->]; [eauto|].
    destruct (lookup_key_cases y reachable) as [(e2 & -> & Hy)|[-> Hy]]; cbn [bind];
      [|right; split; [reflexivity|]; exists [VStr a; y; z], y;
        repeat split; [left | right; left | exact Hy]].
    destruct e2 as [[c2 modes]|];
      [|left; exists None; split; [reflexivity | intros [? [=]]]].
    destruct Hy as [d ->]; [eauto|].
    destruct (py_in_list z modes) eqn:Hmode; cbn [negb];
      [|left; exists None; split; [reflexivity | intros [? [=]]]].
    apply py_in_list_is_str in Hmode as [m ->].
    destruct (py_eq (VStr a) current); cbn [negb];
      [|left; exists None; split; [reflexivity | intros [? [=]]]].
    destruct (IH ({[c2]} ∪ ({[c1]} ∪ visited)) (VStr d))
      as [(r & -> & Hr)|[-> (fs & v & Hin & Hv & Hh)]].
    + left. exists r. split; [reflexivity|]. intros Hsome.
      destruct (Hr Hsome) as [sol ->]. exists ((a, d, m) :: sol). reflexivity.
    + right. split; [reflexivity|]. exists fs, v.
      split; [right; exact Hin | split; assumption].
Qed.

Lemma last_3_tuple (l : list pyval) (item : pyval) :
  Forall (fun item => is_3_tuple item = true) l → last l = Some item →
  ∃ v, py_getitem item 1 = Ok v.
Proof.
  intros Hall Hlast. apply last_Some in Hlast as [l' ->].
  apply Forall_app in Hall as [_ Hitem]. apply Forall_cons in Hitem as [Hitem _].
  destruct item as [| | |fs|]; try discriminate Hitem.
  destruct fs as [|x [|y [|z [|w fs]]]]; try discriminate Hitem.
  exists y. reflexivity.
Qed.

End Pipeline.

(** X5. Scoring a plan that travel extraction returned gives a verdict, or
    raises [TypeError]; it raises only when some field of the plan cannot
    be hashed.  No other exception comes out of the two functions
    together. *)
Theorem score_travel_eval_after_extraction :
  ∀ (literal_eval : string → result pyval) (response : string) (plan : pyval)
    (c : TravelConstraint),
    extract_travel_eval literal_eval response = Ok plan →
    (∃ b, score_travel_eval c plan = Ok b)
    ∨ (score_travel_eval c plan = Raise TypeError
       ∧ ∃ l fs v, plan = VList l ∧ VTuple fs ∈ l ∧ v ∈ fs ∧ hashable v = false).
Proof.
  intros literal_eval response plan c Hex.
  apply extract_travel_eval_3_tuples in Hex as (l & -> & Hall).
  unfold score_travel_eval.
  destruct l as [|item0 l0] eqn:Hl; [left; exists false; reflexivity|].
  rewrite <- Hl in *. assert (Hne : l ≠ []) by (subst; discriminate). clear Hl.
  replace (py_truthy (VList l)) with true by (destruct l; [contradiction | reflexivity]).
  cbn [negb py_getitem].
  destruct (last l) as [item|] eqn:Hlast; [|apply last_None in Hlast; contradiction].
  rewrite (seq_index_last _ item Hlast). cbn [bind].
  destruct (last_3_tuple l item Hall Hlast) as [v ->]. cbn [bind].
  destruct (py_eq v (VStr (city_end c))); cbn [negb]; [|left; exists false; reflexivity].
  unfold _validate_connectivity. cbn [py_iter bind].
  destruct (connectivity_loop_3_tuples (graph c) l Hall ∅ (VStr (city_start c)))
    as [(r & -> & Hr)|[-> (fs & u & Hin & Hu & Hh)]]; cbn [bind];
    [|right; split; [reflexivity | exists l, fs, u; repeat split; assumption]].
  left. destruct r as [visited|]; [|exists false; reflexivity].
  destruct (Z.of_nat (size visited) <? steps c); cbn [bind negb];
    [exists false; reflexivity|].
  destruct Hr as [sol ->]; [eauto|].
  rewrite step_val_triple_val, validate_budget_plan. cbn [bind].
  destruct (match plan_cost _ _ with Some _ => _ | None => _ end);
    cbn [negb]; eexists; reflexivity.
Qed.

Lemma score_travel_eval_after_extraction_witness :
  (∃ b, score_travel_eval (sample_constraint 10)
          (VList [VTuple [VStr "Fresno"; VStr "Irvine"; VStr "motorhome"]]) = Ok b)
  ∨ (score_travel_eval (sample_constraint 10)
       (VList [VTuple [VStr "Fresno"; VStr "Irvine"; VStr "motorhome"]])
     = Raise TypeError
     ∧ ∃ l fs v,
         VList [VTuple [VStr "Fresno"; VStr "Irvine"; VStr "motorhome"]] = VList l
         ∧ VTuple fs ∈ l ∧ v ∈ fs ∧ hashable v = false).
Proof.
  apply (score_travel_eval_after_extraction literal_eval_itinerary_sample
           (block "[(Fresno, Irvine, motorhome)]")).
  vm_compute. reflexivity.
Defined.

(** ** Markers and runs of characters *)

Section Markers.

Lemma contains_split (w s : string) :
  contains w s = true → ∃ p q, s = p +:+ (w +:+ q).
Proof.
  induction s as [|c s IH]; cbn [contains].
  - destruct (strip_prefix w EmptyString) as [q|] eqn:E; [|discriminate].
    intros _. exists EmptyString, q. rewrite append_nil_l.
    apply (proj1 (strip_prefix_Some w _ q)), E.
  - destruct (strip_prefix w (String c s)) as [q|] eqn:E.
    + intros _. exists EmptyString, q. rewrite append_nil_l.
      apply (proj1 (strip_prefix_Some w _ q)), E.
    + intros H. destruct (IH H) as (p & q & ->). exists (String c p), q. reflexivity.
Qed.

(** A text that contains [u +:+ w +:+ v] contains [w]. *)
Lemma contains_inner (u w v s : string) :
  contains w s = false → contains (u +:+ (w +:+ v)) s = false.
Proof.
  intros H. destruct (contains (u +:+ (w +:+ v)) s) eqn:E; [|reflexivity].
  apply contains_split in E as (p & q & ->).
  rewrite <- H. symmetry.
  rewrite !append_assoc, <- (append_assoc p u). apply contains_app.
Qed.

(** A pattern that starts with a literal text only matches where the text
    occurs. *)
Lemma re_search_lit_None (w : string) (r : regex) (s : string) :
  contains w s = false → re_search (Seq (lit w) r) s = None.
Proof.
  intros Hno. apply re_search_None. intros skipped t ->.
  unfold match_here. cbn [rmatch]. rewrite rmatch_lit.
  destruct (strip_prefix w t) as [rest|] eqn:E; [|reflexivity].
  apply strip_prefix_Some in E as ->. rewrite contains_app in Hno. discriminate.
Qed.

Lemma re_findall_None (r : regex) (s : string) :
  re_search r s = None → re_findall r s = [].
Proof. intros H. unfold re_findall. cbn [findall_loop]. rewrite H. reflexivity. Qed.

Lemma re_sub_None (r : regex) (repl : option string → string) (s : string) :
  re_search r s = None → re_sub r repl s = s.
Proof. intros H. unfold re_sub. cbn [sub_loop]. rewrite H. reflexivity. Qed.

Lemma all_chars_app (p : ascii → bool) (s t : string) :
  all_chars p (s +:+ t) = all_chars p s && all_chars p t.
Proof.
  induction s as [|c s IH]; [reflexivity|].
  rewrite append_cons. cbn [all_chars]. rewrite IH, andb_assoc. reflexivity.
Qed.

Lemma consumed_app (skipped t : string) : consumed (skipped +:+ t) t = skipped.
Proof.
  unfold consumed. rewrite length_append.
  replace (String.length skipped + String.length t - String.length t)%nat
    with (String.length skipped) by lia.
  induction skipped as [|c skipped IH].
  - rewrite append_nil_l. destruct t; reflexivity.
  - rewrite append_cons. cbn [String.length substring]. rewrite IH. reflexivity.
Qed.

(** A run of single characters skips characters of the class only. *)
Lemma star_loop_sat_all (gr : bool) (p : ascii → bool) (k : cont) (fuel : nat) :
  ∀ s g res,
    star_loop gr (rmatch (Sat p)) k fuel s g = Some res →
    ∃ skipped t, s = skipped +:+ t ∧ all_chars p skipped = true
                 ∧ k t g = Some res.
Proof.
  induction fuel as [|fuel IH]; intros s g res; cbn [star_loop rmatch].
  - intros H. exists EmptyString, s. repeat split. exact H.
  - assert (Hagain :
      match s with
      | String c s' =>
          if p c
          then if (String.length s' <? String.length s)%nat
               then star_loop gr (rmatch (Sat p)) k fuel s' g else None
          else None
      | EmptyString => None
      end = Some res →
      ∃ skipped t, s = skipped +:+ t ∧ all_chars p skipped = true
                   ∧ k t g = Some res).
    { destruct s as [|c s']; [discriminate|].
      destruct (p c) eqn:Hc; [|discriminate].
      destruct (String.length s' <? String.length (String c s'))%nat; [|discriminate].
      intros H. apply IH in H as (skipped & t & -> & Hall & Hk).
      exists (String c skipped), t. split; [reflexivity|].
      split; [cbn [all_chars]; rewrite Hc, Hall; reflexivity | exact Hk]. }
    assert (Hstop : k s g = Some res →
      ∃ skipped t, s = skipped +:+ t ∧ all_chars p skipped = true
                   ∧ k t g = Some res).
    { intros H. exists EmptyString, s. repeat split. exact H. }
    destruct gr.
    + destruct (match s with String _ _ => _ | EmptyString => _ end) as [x|].
      * intros [= <-]. apply Hagain. reflexivity.
      * exact Hstop.
    + destruct (k s g) as [x|].
      * intros [= <-]. apply Hstop. reflexivity.
      * exact Hagain.
Qed.

Lemma rmatch_seq_rest (r1 r2 : regex) (s : string) (g : option string)
    (k : cont) (res : mres) :
  rmatch (Seq r1 r2) s g k = Some res →
  ∃ s' g', rmatch r2 s' g' k = Some res.
Proof.
  cbn [rmatch]. intros H. apply rmatch_rest in H as (s' & g' & _ & H). eauto.
Qed.

End Markers.

(** ** Travel extraction without a block, mathgap extraction *)

(** X6. A response without the text of a python fence yields the empty
    plan, and [ast.literal_eval] is not consulted. *)
Theorem extract_travel_eval_no_block :
  ∀ (literal_eval : string → result pyval) (response : string),
    contains "```python" response = false →
    extract_travel_eval literal_eval response = Ok (VList []).
Proof.
  intros literal_eval response Hno. unfold extract_travel_eval. cbv zeta.
  rewrite re_findall_None; [reflexivity|].
  apply (re_search_lit_None "```python"), Hno.
Qed.

Section Mathgap.

Lemma py_int_raises (s : string) (e : exn) : py_int s = Raise e → e = ValueError.
Proof.
  unfold py_int. cbv zeta.
  destruct (match strip_chars is_int_space s with
            | EmptyString => _ | String _ _ => _ end); [discriminate|].
  intros [= <-]. reflexivity.
Qed.

Lemma try_int_value (t : string) :
  try_except (let* z := py_int t in Ok (VInt z)) ValueError (Ok VNone)
  = Ok (match py_int t with Ok z => VInt z | Raise _ => VNone end).
Proof.
  destruct (py_int t) as [z|e] eqn:E; cbn [bind try_except]; [reflexivity|].
  apply py_int_raises in E as ->. reflexivity.
Qed.

End Mathgap.

(** X7. Mathgap extraction never raises: it returns None or an integer, and
    None when the response has no [boxed{] marker. *)
Theorem extract_mathgap_eval_total :
  ∀ response : string,
    ∃ v, extract_mathgap_eval response = Ok v
      ∧ (v = VNone ∨ ∃ z, v = VInt z)
      ∧ (contains "boxed{" response = false → v = VNone).
Proof.
  intros response. unfold extract_mathgap_eval. cbv zeta.
  destruct (last (re_findall boxed_content_re response)) as [t|] eqn:Hlast.
  - rewrite try_int_value. eexists. split; [reflexivity|]. split.
    + destruct (py_int t); eauto.
    + intros Hno. rewrite re_findall_None in Hlast; [discriminate|].
      apply (re_search_lit_None "boxed{"), Hno.
  - exists VNone. repeat split. left. reflexivity.
Qed.

(** ** Logic extraction: what is returned *)

Section LogicLetter.

(** The group [([A-D])] followed by a literal text: what is captured is one
    letter from A to D. *)
Lemma rmatch_letter_group (w : string) (s : string) (g : option string)
    (res : mres) :
  rmatch (Seq (Group A_to_D) (lit w)) s g accept = Some res →
  is_letter_capture res.
Proof.
  unfold A_to_D. cbn [rmatch]. destruct s as [|x s]; [discriminate|].
  destruct (is_A_to_D x) eqn:Hx; [|discriminate].
  rewrite rmatch_lit, consumed_one.
  destruct (strip_prefix w s) as [rest|]; [|discriminate].
  unfold accept. intros [= <-]. exists x. split; [exact Hx | reflexivity].
Qed.

Lemma match_here_html_letter (t : string) (res : mres) :
  match_here extract_answer_html t = Some res → is_letter_capture res.
Proof.
  unfold match_here, extract_answer_html. cbn [seq]. intros H.
  do 2 apply rmatch_seq_rest in H as (? & ? & H).
  apply (rmatch_letter_group "</answer>") in H. exact H.
Qed.

Lemma match_here_boxed_letter (t : string) (res : mres) :
  match_here extract_answer_boxed t = Some res → is_letter_capture res.
Proof.
  unfold match_here, extract_answer_boxed. cbn [seq]. intros H.
  apply rmatch_seq_rest in H as (? & ? & H).
  apply (rmatch_letter_group "}") in H. exact H.
Qed.

Lemma match_here_sentence_letter (t : string) (res : mres) :
  match_here extract_answer_sentence t = Some res → is_letter_capture res.
Proof.
  unfold match_here, extract_answer_sentence. cbn [seq]. intros H.
  do 3 apply rmatch_seq_rest in H as (? & ? & H).
  apply (rmatch_letter_group EmptyString) in H. exact H.
Qed.

Lemma match_here_sentence2_letter (t : string) (res : mres) :
  match_here extract_answer_sentence2 t = Some res → is_letter_capture res.
Proof.
  unfold match_here, extract_answer_sentence2. cbn [seq]. intros H.
  do 2 apply rmatch_seq_rest in H as (? & ? & H).
  apply (rmatch_letter_group EmptyString) in H. exact H.
Qed.

Lemma re_search_letter (r : regex) (s : string) (m : string * mres) :
  (∀ t res, match_here r t = Some res → is_letter_capture res) →
  re_search r s = Some m →
  ∃ x, is_A_to_D x = true ∧ group1 m = VStr (String x EmptyString).
Proof.
  intros Hr Hs. destruct m as [skipped res].
  apply re_search_Some in Hs as (t & _ & Hm & _).
  destruct (Hr t res Hm) as (x & Hx & Hg). exists x. split; [exact Hx|].
  unfold group1. cbn [snd]. rewrite Hg. reflexivity.
Qed.

Lemma extract_logic_eval_cases (response : string) :
  extract_logic_eval response = VStr EmptyString
  ∨ ∃ x, is_A_to_D x = true
         ∧ extract_logic_eval response = VStr (String x EmptyString).
Proof.
  unfold extract_logic_eval, compiled_res. cbn [logic_loop].
  destruct (re_search extract_answer_html response) as [m|] eqn:E1;
    [right; exact (re_search_letter _ _ _ match_here_html_letter E1)|].
  destruct (re_search extract_answer_boxed response) as [m|] eqn:E2;
    [right; exact (re_search_letter _ _ _ match_here_boxed_letter E2)|].
  destruct (re_search extract_answer_sentence response) as [m|] eqn:E3;
    [right; exact (re_search_letter _ _ _ match_here_sentence_letter E3)|].
  destruct (re_search extract_answer_sentence2 response) as [m|] eqn:E4;
    [right; exact (re_search_letter _ _ _ match_here_sentence2_letter E4)|].
  left. reflexivity.
Qed.

End LogicLetter.

(** X8. Logic extraction returns the empty string or one letter from A to
    D, and the empty string when the response contains neither [answer]
    nor [boxed{]. *)
Theorem extract_logic_eval_letter_or_empty :
  ∀ response : string,
    (extract_logic_eval response = VStr EmptyString
     ∨ ∃ x, is_A_to_D x = true
            ∧ extract_logic_eval response = VStr (String x EmptyString))
    ∧ (contains "answer" response = false →
       contains "boxed{" response = false →
       extract_logic_eval response = VStr EmptyString).
Proof.
  intros response. split; [apply extract_logic_eval_cases|].
  unfold extract_logic_eval, compiled_res. cbn [logic_loop].
  intros Hans Hbox.
  rewrite re_search_html_None
    by (apply (contains_inner "<" "answer" ">"), Hans).
  unfold extract_answer_boxed, extract_answer_sentence, extract_answer_sentence2.
  cbn [seq].
  rewrite (re_search_lit_None "boxed{") by exact Hbox.
  rewrite !(re_search_lit_None "answer") by exact Hans. reflexivity.
Qed.

(** ** Open-ended extraction: what is returned *)

Section UnpuzzleResult.

Lemma first_acceptable_not_placeholder (matches : list string) (s : string) :
  first_acceptable matches = Some s → is_placeholder s = false.
Proof.
  induction matches as [|t matches IH]; cbn [first_acceptable]; [discriminate|].
  destruct (is_placeholder t) eqn:Ht; cbn [negb]; [exact IH|].
  intros [= <-]. exact Ht.
Qed.

Lemma unpuzzle_loop_not_placeholder (response : string) (res : list regex) :
  is_placeholder (unpuzzle_loop res response) = false.
Proof.
  induction res as [|r res IH]; [reflexivity|].
  rewrite unpuzzle_loop_cons.
  destruct (first_acceptable (re_findall r response)) as [s|] eqn:E; [|exact IH].
  apply first_acceptable_not_placeholder in E. exact E.
Qed.

(** The last pattern of [find_answers] wants text after a [$]: it matches
    nowhere. *)
Lemma match_here_slash_None (t : string) :
  match_here (seq [chr "/"; Eos; Group (plus false dot); chr "/"; Eos]) t = None.
Proof.
  unfold match_here, chr, plus, dot. cbn [seq rmatch].
  destruct t as [|c t]; [reflexivity|].
  destruct (Ascii.eqb "/" c); [|reflexivity].
  destruct t as [|c' t]; [reflexivity|]. cbn [at_end].
  destruct t as [|c'' t]; [|reflexivity].
  destruct (Ascii.eqb c' newline) eqn:Hnl; [|reflexivity].
  cbn [negb]. reflexivity.
Qed.

End UnpuzzleResult.

(** X11. Open-ended extraction never returns one of the placeholders, and
    returns the empty string when the response contains none of [boxed{],
    [Answer] and [answer is]. *)
Theorem extract_unpuzzle_eval_never_placeholder :
  ∀ response : string,
    extract_unpuzzle_eval response ≠ "your answer"
    ∧ extract_unpuzzle_eval response ≠ "answer"
    ∧ (contains "boxed{" response = false →
       contains "Answer" response = false →
       contains "answer is" response = false →
       extract_unpuzzle_eval response = EmptyString).
Proof.
  intros response.
  pose proof (unpuzzle_loop_not_placeholder response find_answers) as H.
  fold (extract_unpuzzle_eval response) in H.
  split; [|split].
  - intros E. rewrite E in H. discriminate H.
  - intros E. rewrite E in H. discriminate H.
  - intros Hbox HAns Hans. unfold extract_unpuzzle_eval.
    apply unpuzzle_loop_none. intros r Hr.
    assert (Hnone : re_search r response = None).
    { unfold find_answers in Hr. cbn [seq] in Hr.
      repeat (apply elem_of_cons in Hr as [->|Hr]).
      - apply (re_search_lit_None "boxed{"), Hbox.
      - apply (re_search_lit_None "Answer"), HAns.
      - apply (re_search_lit_None "**Answer"),
          (contains_inner "**" "Answer" EmptyString).
        exact HAns.
      - apply (re_search_lit_None "answer is"), Hans.
      - apply (re_search_lit_None "**answer is"),
          (contains_inner "**" "answer is" EmptyString).
        exact Hans.
      - apply (re_search_lit_None "Answer: "),
          (contains_inner EmptyString "Answer" ": ").
        exact HAns.
      - apply re_search_None. intros skipped t _. apply match_here_slash_None.
      - apply elem_of_nil in Hr. contradiction. }
    rewrite re_findall_None by exact Hnone. reflexivity.
Qed.

(** X12. The last pattern of [find_answers] asks for text after the end of
    the response: it has no match in any response. *)
Theorem find_answers_last_pattern_dead :
  ∀ (response : string) (r : regex),
    find_answers !! 6%nat = Some r →
    re_search r response = None ∧ re_findall r response = [].
Proof.
  intros response r [= <-].
  assert (H : re_search (seq [chr "/"; Eos; Group (plus false dot); chr "/"; Eos])
                response = None).
  { apply re_search_None. intros skipped t _. apply match_here_slash_None. }
  split; [exact H | apply re_findall_None, H].
Qed.

(** ** Counting extraction: the shape of the result *)

Section CountShape.

Lemma int_or_word_value (s : string) : int_or_word s = Ok (count_answer s).
Proof.
  unfold int_or_word, count_answer.
  destruct (py_int s) as [z|e] eqn:E; cbn [bind try_except]; [reflexivity|].
  apply py_int_raises in E as ->. reflexivity.
Qed.

Lemma text_to_int_int_or_none (s : string) : int_or_none (_text_to_int s).
Proof.
  unfold _text_to_int. destruct (dict_get text_to_int_dict s) as [z|];
    [right; eauto | left; reflexivity].
Qed.

Lemma count_answer_int_or_none (s : string) : int_or_none (count_answer s).
Proof.
  unfold count_answer. destruct (py_int s) as [z|e];
    [right; eauto | apply text_to_int_int_or_none].
Qed.

Lemma count_answers_loop (l : list string) :
  (fix loop (l : list string) : result (list pyval) :=
     match l with
     | [] => Ok []
     | ans :: l' =>
         let* ans := int_or_word (_remove_text_formatting ans) in
         let* answers := loop l' in
         Ok (ans :: answers)
     end) l
  = Ok (map (fun ans => count_answer (_remove_text_formatting ans)) l).
Proof.
  induction l as [|ans l IH]; [reflexivity|].
  rewrite int_or_word_value. cbn [bind]. rewrite IH. reflexivity.
Qed.

End CountShape.

Lemma extract_count_eval_list :
  ∀ (response : string) (k : Z) (v : pyval),
    extract_count_eval response k = Ok v →
    ∃ l, v = VList l
         ∧ (l = [VStr EmptyString]
            ∨ (Z.of_nat (length l) = k ∧ Forall int_or_none l)).
Proof.
  intros response k v. unfold extract_count_eval.
  destruct (Z.eqb_spec k 1) as [->|Hk]; cbv zeta.
  - destruct (re_search count_re response) as [m|];
      [|intros [= <-]; eexists; split; [reflexivity | left; reflexivity]].
    destruct (group1 m) as [| |s| |]; try discriminate.
    rewrite int_or_word_value. cbn [bind]. intros [= <-].
    eexists. split; [reflexivity|]. right. split; [reflexivity|].
    constructor; [apply count_answer_int_or_none | constructor].
  - destruct (re_search count_multi_re response) as [m|]; [|discriminate].
    destruct (group1 m) as [| |s| |]; try discriminate.
    rewrite count_answers_loop. cbn [bind].
    destruct (Z.eqb_spec (Z.of_nat (length (map (fun ans =>
                count_answer (_remove_text_formatting ans)) (split "," s)))) k)
      as [Hlen|Hlen]; cbn [negb]; intros [= <-];
      (eexists; split; [reflexivity|]).
    + right. split; [exact Hlen|]. apply Forall_forall. intros a Ha.
      apply list_elem_of_In, in_map_iff in Ha as (ans & <- & _).
      apply count_answer_int_or_none.
    + left. reflexivity.
Qed.

(** X13. When counting extraction returns, the list has exactly [k]
    elements, each None or an integer, or it is the one-element list
    holding the empty string. *)
Theorem extract_count_eval_shape :
  ∀ (response : string) (k : Z) (v : pyval),
    extract_count_eval response k = Ok v →
    ∃ l, v = VList l
         ∧ (l = [VStr EmptyString]
            ∨ (Z.of_nat (length l) = k ∧ Forall int_or_none l)).
Proof. exact extract_count_eval_list. Qed.

(** ** Counting extraction of a single answer *)

Section Digits.

Lemma all_chars_suffix (p : ascii → bool) (skipped t : string) :
  all_chars p (skipped +:+ t) = true → all_chars p t = true.
Proof. rewrite all_chars_app, andb_true_iff. tauto. Qed.

(** What [count_re] captures is a non-empty run of digits. *)
Lemma match_here_count_re (t : string) (res : mres) :
  match_here count_re t = Some res →
  ∃ c ds, res.2 = Some (String c ds) ∧ all_chars is_digit (String c ds) = true.
Proof.
  unfold match_here, count_re. cbn [seq]. intros H.
  apply rmatch_seq_rest in H as (s0 & g0 & H).
  apply rmatch_seq_rest in H as (s1 & g1 & H).
  unfold plus, digit, dot in H. cbn [rmatch] in H.
  destruct s1 as [|c s1]; [discriminate|].
  destruct (is_digit c) eqn:Hc; [|discriminate].
  apply star_loop_sat_all in H as (ds & t1 & -> & Hds & H).
  change (String c (ds +:+ t1)) with (String c ds +:+ t1) in H.
  rewrite consumed_app in H.
  apply star_loop_sat in H as (skipped & t2 & -> & H).
  rewrite rmatch_lit in H. destruct (strip_prefix "time" t2); [|discriminate].
  injection H as <-. exists c, ds. split; [reflexivity|].
  cbn [all_chars]. rewrite Hc, Hds. reflexivity.
Qed.

(** A text of digits has none of the marks [_remove_text_formatting]
    removes. *)
Lemma re_search_leading_None (c : ascii) (r : regex) (s : string) :
  is_digit c = false → all_chars is_digit s = true →
  re_search (Seq (chr c) r) s = None.
Proof.
  intros Hc Hs. apply re_search_None. intros skipped t ->.
  apply all_chars_suffix in Hs. unfold match_here, chr. cbn [rmatch].
  destruct t as [|c' t]; [reflexivity|].
  destruct (Ascii.eqb_spec c c') as [<-|]; [|reflexivity].
  cbn [all_chars] in Hs. rewrite Hc in Hs. discriminate.
Qed.

Lemma re_search_trailing_None (c : ascii) (r : regex) (s : string) :
  is_digit c = false → all_chars is_digit s = true →
  re_search (Seq (Group (plus true digit)) (Seq (chr c) r)) s = None.
Proof.
  intros Hc Hs. apply re_search_None. intros skipped t ->.
  apply all_chars_suffix in Hs.
  destruct (match_here _ t) as [res|] eqn:H; [exfalso | reflexivity].
  unfold match_here, plus, digit, chr in H. cbn [rmatch] in H.
  destruct t as [|d t]; [discriminate|].
  destruct (is_digit d); [|discriminate].
  apply star_loop_sat_all in H as (ds & t1 & -> & _ & H).
  cbn [all_chars] in Hs. apply andb_true_iff in Hs as [_ Hs].
  apply all_chars_suffix in Hs.
  destruct t1 as [|c' t1]; [discriminate|].
  destruct (Ascii.eqb_spec c c') as [<-|]; [|discriminate].
  cbn [all_chars] in Hs. rewrite Hc in Hs. discriminate.
Qed.

Lemma remove_text_formatting_digits (s : string) :
  all_chars is_digit s = true → _remove_text_formatting s = s.
Proof.
  intros Hs. unfold _remove_text_formatting. cbv zeta. cbn [seq lit].
  rewrite (re_sub_None (Seq (chr "#") _)) by (apply re_search_leading_None; easy).
  rewrite (re_sub_None (Seq (Group _) (Seq (chr "#") _)))
    by (apply re_search_trailing_None; easy).
  rewrite (re_sub_None (Seq (Seq (chr "*") _) _)).
  2:{ apply re_search_None. intros skipped t ->. apply all_chars_suffix in Hs.
      unfold match_here, chr. cbn [rmatch]. destruct t as [|c' t]; [reflexivity|].
      destruct (Ascii.eqb_spec "*" c') as [<-|]; [|reflexivity].
      discriminate Hs. }
  rewrite (re_sub_None (Seq (Group _) (Seq (Seq (chr "*") _) _))).
  2:{ apply re_search_None. intros skipped t ->. apply all_chars_suffix in Hs.
      destruct (match_here _ t) as [res|] eqn:H; [exfalso | reflexivity].
      unfold match_here, plus, digit, chr in H. cbn [rmatch] in H.
      destruct t as [|d t]; [discriminate|].
      destruct (is_digit d); [|discriminate].
      apply star_loop_sat_all in H as (ds & t1 & -> & _ & H).
      cbn [all_chars] in Hs. apply andb_true_iff in Hs as [_ Hs].
      apply all_chars_suffix in Hs.
      destruct t1 as [|c' t1]; [discriminate|].
      destruct (Ascii.eqb_spec "*" c') as [<-|]; [|discriminate].
      discriminate Hs. }
  rewrite (re_sub_None (Seq (chr backslash) _))
    by (apply re_search_leading_None; easy).
  rewrite (re_sub_None (Seq (Group _) (Seq (chr backslash) _)))
    by (apply re_search_trailing_None; easy).
  reflexivity.
Qed.

(** [int] of a non-empty text of digits is a non-negative number. *)
Lemma is_digit_not_int_space (c : ascii) : is_digit c = true → is_int_space c = false.
Proof. destruct c as [[] [] [] [] [] [] [] []]; (discriminate || reflexivity). Qed.

Lemma lstrip_digits (s : string) :
  all_chars is_digit s = true → lstrip is_int_space s = s.
Proof.
  destruct s as [|c s]; [reflexivity|]. cbn [all_chars lstrip].
  intros H. apply andb_true_iff in H as [Hc _].
  rewrite (is_digit_not_int_space c Hc). reflexivity.
Qed.

Lemma rstrip_digits (s : string) :
  all_chars is_digit s = true → rstrip is_int_space s = s.
Proof.
  induction s as [|c s IH]; [reflexivity|]. cbn [all_chars rstrip].
  intros H. apply andb_true_iff in H as [Hc Hs]. rewrite (IH Hs).
  destruct s; [rewrite (is_digit_not_int_space c Hc)|]; reflexivity.
Qed.

Lemma int_digits_digits (s : string) :
  all_chars is_digit s = true →
  ∀ acc after_digit,
    0 ≤ acc → (s = EmptyString → after_digit = true) →
    ∃ z, int_digits s acc after_digit = Some z ∧ 0 ≤ z.
Proof.
  induction s as [|c s IH]; intros Hs acc after_digit Hacc Hne.
  - rewrite Hne by reflexivity. exists acc. split; [reflexivity | exact Hacc].
  - cbn [all_chars] in Hs. apply andb_true_iff in Hs as [Hc Hs].
    cbn [int_digits]. rewrite Hc. apply (IH Hs); [lia | reflexivity].
Qed.

Lemma py_int_digits (c : ascii) (ds : string) :
  all_chars is_digit (String c ds) = true →
  ∃ z, py_int (String c ds) = Ok z ∧ 0 ≤ z.
Proof.
  intros Hs. unfold py_int, strip_chars. cbv zeta.
  rewrite lstrip_digits, rstrip_digits by exact Hs.
  destruct (int_digits_digits (String c ds) Hs 0 false) as (z & Hz & Hpos);
    [lia | discriminate |].
  exists z. split; [|exact Hpos].
  cbn [all_chars] in Hs. apply andb_true_iff in Hs as [Hc _].
  assert (Hsign : match String c ds with
                  | String "-" t' => option_map Z.opp (int_digits t' 0 false)
                  | String "+" t' => int_digits t' 0 false
                  | _ => int_digits (String c ds) 0 false
                  end = int_digits (String c ds) 0 false).
  { destruct c as [[] [] [] [] [] [] [] []]; (discriminate Hc || reflexivity). }
  rewrite Hsign, Hz. reflexivity.
Qed.

End Digits.

Lemma extract_count_eval_one :
  ∀ response : string,
    (re_search count_re response = None
     ∧ extract_count_eval response 1 = Ok (VList [VStr EmptyString]))
    ∨ ∃ n, 0 ≤ n ∧ extract_count_eval response 1 = Ok (VList [VInt n]).
Proof.
  intros response. unfold extract_count_eval. change (1 =? 1) with true.
  cbv iota zeta.
  destruct (re_search count_re response) as [[skipped res]|] eqn:E;
    [right | left; split; reflexivity].
  apply re_search_Some in E as (t & _ & Hm & _).
  apply match_here_count_re in Hm as (c & ds & Hg & Hds).
  unfold group1. cbn [snd]. rewrite Hg.
  rewrite remove_text_formatting_digits by exact Hds.
  destruct (py_int_digits c ds Hds) as (n & Hn & Hpos).
  exists n. split; [exact Hpos|]. unfold int_or_word. rewrite Hn. reflexivity.
Qed.


(** ** Suffixes, and texts without parentheses *)

Section Suffix.

(** A match hands its continuation a suffix of the text. *)
Lemma star_loop_suffix (gr : bool)
    (body : string → option string → cont → option mres) (k : cont) :
  (∀ s g c res, body s g c = Some res →
                ∃ skipped s' g', s = skipped +:+ s' ∧ c s' g' = Some res) →
  ∀ fuel s g res,
    star_loop gr body k fuel s g = Some res →
    ∃ skipped s' g', s = skipped +:+ s' ∧ k s' g' = Some res.
Proof.
  intros Hbody. induction fuel as [|fuel IH]; intros s g res; cbn [star_loop].
  - intros H. exists EmptyString, s, g. split; [reflexivity | exact H].
  - set (again := body s g _).
    assert (Hagain : again = Some res →
      ∃ skipped s' g', s = skipped +:+ s' ∧ k s' g' = Some res).
    { intros H. apply Hbody in H as (p1 & s1 & g1 & -> & H).
      destruct (String.length s1 <? String.length (p1 +:+ s1))%nat; [|discriminate].
      apply IH in H as (p2 & s2 & g2 & -> & H). exists (p1 +:+ p2), s2, g2.
      split; [symmetry; apply append_assoc | exact H]. }
    assert (Hstop : k s g = Some res →
      ∃ skipped s' g', s = skipped +:+ s' ∧ k s' g' = Some res).
    { intros H. exists EmptyString, s, g. split; [reflexivity | exact H]. }
    destruct gr.
    + destruct again as [x|]; [intros [= <-]; apply Hagain; reflexivity | exact Hstop].
    + destruct (k s g) as [x|]; [intros [= <-]; apply Hstop; reflexivity | exact Hagain].
Qed.

Lemma rmatch_suffix (r : regex) :
  ∀ s g k res,
    rmatch r s g k = Some res →
    ∃ skipped s' g', s = skipped +:+ s' ∧ k s' g' = Some res.
Proof.
  induction r as [p| |r1 IH1 r2 IH2|gr r IH|r IH|r IH|]; intros s g k res;
    cbn [rmatch].
  - destruct s as [|c s]; [discriminate|]. destruct (p c); [|discriminate].
    intros H. exists (String c EmptyString), s, g. split; [reflexivity | exact H].
  - intros H. exists EmptyString, s, g. split; [reflexivity | exact H].
  - intros H. apply IH1 in H as (p1 & s1 & g1 & -> & H).
    apply IH2 in H as (p2 & s2 & g2 & -> & H). exists (p1 +:+ p2), s2, g2.
    split; [symmetry; apply append_assoc | exact H].
  - apply star_loop_suffix. exact IH.
  - destruct (rmatch r s g k) as [x|] eqn:E.
    + intros [= <-]. apply IH in E. exact E.
    + intros H. exists EmptyString, s, g. split; [reflexivity | exact H].
  - intros H. apply IH in H as (p1 & s1 & g1 & -> & H). eauto.
  - destruct (at_end s); [|discriminate]. intros H.
    exists EmptyString, s, g. split; [reflexivity | exact H].
Qed.

Lemma rmatch_seq_suffix (r1 r2 : regex) (s : string) (g : option string)
    (k : cont) (res : mres) :
  rmatch (Seq r1 r2) s g k = Some res →
  ∃ skipped s' g', s = skipped +:+ s' ∧ rmatch r2 s' g' k = Some res.
Proof. cbn [rmatch]. intros H. apply rmatch_suffix in H. exact H. Qed.

Lemma re_search_chr_None (c : ascii) (r : regex) (s : string) :
  contains (String c EmptyString) s = false →
  re_search (Seq (chr c) r) s = None.
Proof.
  intros Hno. apply re_search_None. intros skipped t ->.
  unfold match_here, chr. cbn [rmatch]. destruct t as [|c' t]; [reflexivity|].
  destruct (Ascii.eqb_spec c c') as [<-|]; [|reflexivity].
  change (String c t) with (String c EmptyString +:+ t) in Hno.
  rewrite contains_app in Hno. discriminate.
Qed.

End Suffix.

(** X15. A text without an opening or without a closing parenthesis is
    returned unchanged by [_insert_quotes_in_tuples]. *)
Theorem insert_quotes_in_tuples_without_parentheses :
  ∀ candidate : string,
    contains "(" candidate = false ∨ contains ")" candidate = false →
    _insert_quotes_in_tuples candidate = candidate.
Proof.
  intros candidate H. unfold _insert_quotes_in_tuples. apply re_sub_None.
  unfold paren_group_re. cbn [seq]. destruct H as [H|H].
  - apply re_search_chr_None, H.
  - apply re_search_None. intros skipped t ->.
    destruct (match_here _ t) as [res|] eqn:E; [exfalso | reflexivity].
    unfold match_here in E.
    apply rmatch_seq_suffix in E as (p1 & s1 & g1 & -> & E).
    apply rmatch_seq_suffix in E as (p2 & s2 & g2 & -> & E).
    unfold chr in E. cbn [rmatch] in E.
    destruct s2 as [|c s2]; [discriminate|].
    destruct (Ascii.eqb_spec ")" c) as [<-|]; [|discriminate].
    rewrite <- !append_assoc in H.
    change (String ")" s2) with (")" +:+ s2) in H.
    rewrite contains_app in H. discriminate.
Qed.

(** ** The scorers for logic and open-ended answers, and the number words *)

Section Case.

Lemma lower_char_idemp (c : ascii) : lower_char (lower_char c) = lower_char c.
Proof. destruct c as [[] [] [] [] [] [] [] []]; reflexivity. Qed.

Lemma lower_idemp (s : string) : lower (lower s) = lower s.
Proof.
  induction s as [|c s IH]; [reflexivity|].
  cbn [lower]. rewrite lower_char_idemp, IH. reflexivity.
Qed.


Lemma lower_append (s t : string) : lower (s +:+ t) = lower s +:+ lower t.
Proof.
  induction s as [|c s IH]; [reflexivity|].
  rewrite append_cons. cbn [lower]. rewrite IH. reflexivity.
Qed.

End Case.


Section Padding.

Lemma rstrip_app_blank (p : ascii → bool) (c : ascii) (v : string) :
  p c = true → rstrip p (v +:+ String c EmptyString) = rstrip p v.
Proof.
  intros Hc. induction v as [|d v IH].
  - rewrite append_nil_l. cbn [rstrip]. rewrite Hc. reflexivity.
  - rewrite append_cons. cbn [rstrip]. rewrite IH. reflexivity.
Qed.

Lemma strip_chars_app_blank (p : ascii → bool) (c : ascii) (u : string) :
  p c = true → strip_chars p (u +:+ String c EmptyString) = strip_chars p u.
Proof.
  intros Hc. unfold strip_chars. induction u as [|d u IH].
  - rewrite append_nil_l. cbn [lstrip]. rewrite Hc. reflexivity.
  - rewrite append_cons. cbn [lstrip]. destruct (p d); [exact IH|].
    change (String d (u +:+ String c EmptyString))
      with (String d u +:+ String c EmptyString).
    apply rstrip_app_blank, Hc.
Qed.

Lemma strip_chars_cons_blank (p : ascii → bool) (c : ascii) (u : string) :
  p c = true → strip_chars p (String c u) = strip_chars p u.
Proof. intros Hc. unfold strip_chars. cbn [lstrip]. rewrite Hc. reflexivity. Qed.

End Padding.

(** X20. The open-ended scorer accepts a text against itself, is symmetric,
    and gives the same verdict when a space is added in front of or behind
    a side, or when a side is lowered. *)
Theorem score_unpuzzle_eval_spaces_and_case :
  ∀ s1 s2 : string,
    score_unpuzzle_eval s1 s1 = true
    ∧ score_unpuzzle_eval s1 s2 = score_unpuzzle_eval s2 s1
    ∧ score_unpuzzle_eval (" " +:+ s1) s2 = score_unpuzzle_eval s1 s2
    ∧ score_unpuzzle_eval (s1 +:+ " ") s2 = score_unpuzzle_eval s1 s2
    ∧ score_unpuzzle_eval (lower s1) s2 = score_unpuzzle_eval s1 s2.
Proof.
  intros s1 s2. unfold score_unpuzzle_eval.
  split; [|split; [|split; [|split]]].
  - apply String.eqb_refl.
  - apply String.eqb_sym.
  - change (lower (" " +:+ s1)) with (String " " (lower s1)).
    rewrite strip_chars_cons_blank by reflexivity. reflexivity.
  - rewrite lower_append. change (lower " ") with (String " " EmptyString).
    rewrite strip_chars_app_blank by reflexivity. reflexivity.
  - rewrite lower_idemp. reflexivity.
Qed.

Section Words.

Lemma dict_get_In (d : list (string * Z)) (s : string) (z : Z) :
  dict_get d s = Some z → In (s, z) d.
Proof.
  induction d as [|[key v] d IH]; cbn [dict_get]; [discriminate|].
  destruct (String.eqb_spec key s) as [->|_].
  - intros [= ->]. left. reflexivity.
  - intros H. right. apply IH, H.
Qed.

Lemma text_to_int_dict_range (s : string) (z : Z) :
  In (s, z) text_to_int_dict → 0 ≤ z ≤ 20.
Proof.
  unfold text_to_int_dict. cbn [In]. intros H.
  repeat (destruct H as [[= <- <-]|H]; [lia|]). contradiction.
Qed.

Lemma text_to_int_dict_injective (s s' : string) (z : Z) :
  In (s, z) text_to_int_dict → In (s', z) text_to_int_dict → s = s'.
Proof.
  unfold text_to_int_dict. cbn [In]. intros H H'.
  repeat (destruct H as [[= <- <-]|H];
          [repeat (destruct H' as [H'|H']; [congruence|]); contradiction|]).
  contradiction.
Qed.

End Words.

Section WordsOnto.

Lemma text_to_int_dict_lookup (w : string) (z : Z) :
  In (w, z) text_to_int_dict → _text_to_int w = VInt z.
Proof.
  unfold text_to_int_dict. cbn [In]. intros H.
  repeat (destruct H as [[= <- <-]|H]; [reflexivity|]). contradiction.
Qed.

Lemma text_to_int_dict_onto (i : nat) :
  (i < 21)%nat →
  In (nth i (map fst text_to_int_dict) EmptyString, Z.of_nat i) text_to_int_dict.
Proof.
  intros Hi.
  do 21 (destruct i as [|i];
         [cbn; repeat (first [left; reflexivity | right])|]).
  lia.
Qed.

End WordsOnto.

(** X22. [_text_to_int] returns None or an integer; an integer it returns is
    between 0 and 20 and is returned for no other text; every integer from
    0 to 20 is returned for some text. *)
Theorem text_to_int_number_words :
  ∀ (s : string),
    (_text_to_int s = VNone ∨ ∃ z, _text_to_int s = VInt z)
    ∧ (∀ z, _text_to_int s = VInt z →
            0 ≤ z ≤ 20 ∧ ∀ s', _text_to_int s' = VInt z → s' = s)
    ∧ (∀ z, 0 ≤ z ≤ 20 → ∃ w, _text_to_int w = VInt z).
Proof.
  intros s. split; [|split].
  - unfold _text_to_int. destruct (dict_get text_to_int_dict s); eauto.
  - intros z Hs.
    assert (Hin : ∀ t, _text_to_int t = VInt z → In (t, z) text_to_int_dict).
    { intros t. unfold _text_to_int.
      destruct (dict_get text_to_int_dict t) as [v|] eqn:E; [|discriminate].
      intros [= ->]. apply dict_get_In, E. }
    split.
    + apply (text_to_int_dict_range s), Hin, Hs.
    + intros s' Hs'. apply (text_to_int_dict_injective s' s z); apply Hin; assumption.
  - intros z Hz. exists (nth (Z.to_nat z) (map fst text_to_int_dict) EmptyString).
    apply text_to_int_dict_lookup.
    rewrite <- (Z2Nat.id z) at 2 by lia. apply text_to_int_dict_onto. lia.
Qed.

(** ** The mathgap scorer *)

Section Equality.



End Equality.


(** ** Answer tags, and logic extraction followed by scoring *)

Section AnswerTag.

Lemma re_search_complete (r : regex) (skipped t : string) (res : mres) :
  match_here r t = Some res → ∃ m, re_search r (skipped +:+ t) = Some m.
Proof.
  intros Hm. induction skipped as [|c skipped [m IH]].
  - rewrite append_nil_l. destruct t; cbn [re_search]; rewrite Hm; eauto.
  - rewrite append_cons. cbn [re_search].
    destruct (match_here r (String c (skipped +:+ t))); [eauto|].
    rewrite IH. destruct m. eauto.
Qed.

(** At an answer tag the pattern of the tag matches. *)
Lemma match_here_html_tag (x : ascii) (post : string) :
  is_A_to_D x = true →
  ∃ res, match_here extract_answer_html
           ("<answer>" +:+ String x ("</answer>" +:+ post)) = Some res.
Proof.
  intros Hx. unfold match_here, extract_answer_html, dot. cbn [seq rmatch star_loop].
  match goal with
  | |- ∃ res, match ?again with Some x => Some x | None => ?stop end = Some res =>
      destruct again as [res|]; [eauto|]
  end.
  rewrite rmatch_lit, strip_prefix_app. unfold A_to_D. cbn [rmatch].
  rewrite Hx, consumed_one, rmatch_lit, strip_prefix_app. cbn [rmatch]. eauto.
Qed.

(** Where the pattern of the tag matches there is an answer tag, and its
    letter is what is captured. *)
Lemma match_here_html_sound (t : string) (res : mres) :
  match_here extract_answer_html t = Some res →
  ∃ y pre post,
    is_A_to_D y = true
    ∧ t = pre +:+ "<answer>" +:+ String y ("</answer>" +:+ post)
    ∧ res.2 = Some (String y EmptyString).
Proof.
  unfold match_here, extract_answer_html, dot. cbn [seq rmatch]. intros H.
  apply star_loop_sat in H as (pre & t1 & -> & H).
  rewrite rmatch_lit in H.
  destruct (strip_prefix "<answer>" t1) as [t2|] eqn:E1; [|discriminate].
  apply strip_prefix_Some in E1 as ->.
  unfold A_to_D in H. cbn [rmatch] in H.
  destruct t2 as [|y t3]; [discriminate|].
  destruct (is_A_to_D y) eqn:Hy; [|discriminate].
  rewrite consumed_one, rmatch_lit in H.
  destruct (strip_prefix "</answer>" t3) as [post|] eqn:E2; [|discriminate].
  apply strip_prefix_Some in E2 as ->. cbn [rmatch] in H. injection H as <-.
  exists y, pre, post. repeat split. exact Hy.
Qed.

End AnswerTag.

(** X9. When the response contains an answer tag around a letter from A to
    D, logic extraction returns the letter of an answer tag of the
    response, whatever boxed markers or answer phrases are there too. *)
Theorem extract_logic_eval_answer_tag_first :
  ∀ (response pre post : string) (x : ascii),
    is_A_to_D x = true →
    response = pre +:+ "<answer>" +:+ String x ("</answer>" +:+ post) →
    ∃ y pre' post',
      is_A_to_D y = true
      ∧ response = pre' +:+ "<answer>" +:+ String y ("</answer>" +:+ post')
      ∧ extract_logic_eval response = VStr (String y EmptyString).
Proof.
  intros response pre post x Hx ->.
  destruct (match_here_html_tag x post Hx) as [res Hres].
  destruct (re_search_complete _ pre _ _ Hres) as [[skipped res'] Hs].
  unfold extract_logic_eval, compiled_res. cbn [logic_loop]. rewrite Hs.
  apply re_search_Some in Hs as (t & Ht & Hm & _).
  apply match_here_html_sound in Hm as (y & pre' & post' & Hy & -> & Hg).
  exists y, (skipped +:+ pre'), post'. split; [exact Hy|]. split.
  - rewrite Ht. symmetry. apply append_assoc.
  - unfold group1. cbn [snd]. rewrite Hg. reflexivity.
Qed.

(** X10. Scoring what logic extraction returned never raises, and the
    verdict is true exactly when a letter was extracted and the ground
    truth is that letter in either case. *)
Theorem score_logic_eval_after_extraction :
  ∀ (correct_answer response : string),
    ∃ b, score_logic_eval correct_answer (extract_logic_eval response) = Ok b
      ∧ (b = true ↔
         ∃ x, is_A_to_D x = true
              ∧ extract_logic_eval response = VStr (String x EmptyString)
              ∧ lower correct_answer = String (lower_char x) EmptyString).
Proof.
  intros c response.
  destruct (extract_logic_eval_cases response) as [->|(x & Hx & ->)].
  - exists false. split; [reflexivity|]. split; [discriminate|].
    intros (x & _ & [=] & _).
  - eexists. split; [reflexivity|]. cbn [lower]. rewrite String.eqb_eq. split.
    + intros H. exists x. repeat split; assumption.
    + intros (y & _ & [= <-] & H). exact H.
Qed.

(** ** Rewriting one parenthesised group *)

Section Greedy.

(** A greedy run takes every character of the class that is there, when
    the rest of the pattern matches after them. *)
Lemma star_loop_greedy_run (p : ascii → bool) (k : cont) (t : string)
    (g : option string) (x : mres) :
  match t with String c _ => p c = false | EmptyString => True end →
  k t g = Some x →
  ∀ run fuel,
    all_chars p run = true →
    (String.length (run +:+ t) < fuel)%nat →
    star_loop true (rmatch (Sat p)) k fuel (run +:+ t) g = Some x.
Proof.
  intros Ht Hk. induction run as [|c run IH]; intros fuel Hrun Hfuel.
  - rewrite append_nil_l in *. destruct fuel as [|fuel]; [lia|].
    cbn [star_loop rmatch]. destruct t as [|c t]; [rewrite Hk; reflexivity|].
    rewrite Ht, Hk. reflexivity.
  - rewrite append_cons in *. destruct fuel as [|fuel]; [lia|].
    cbn [all_chars] in Hrun. apply andb_true_iff in Hrun as [Hc Hrun].
    cbn [star_loop rmatch]. rewrite Hc.
    replace (String.length (run +:+ t) <? String.length (String c (run +:+ t)))%nat
      with true by (symmetry; apply Nat.ltb_lt; cbn [String.length]; lia).
    rewrite IH; [reflexivity | exact Hrun | cbn [String.length] in Hfuel; lia].
Qed.

Lemma contains_char_cons (c d : ascii) (s : string) :
  contains (String c EmptyString) (String d s) = false →
  Ascii.eqb c d = false ∧ contains (String c EmptyString) s = false.
Proof.
  cbn [contains strip_prefix]. destruct (Ascii.eqb c d); [discriminate|]. tauto.
Qed.



End Greedy.


(** ** Texts the removal of formatting leaves alone *)

Section Formatting.




End Formatting.


(** ** Removing the marks around a number *)

Section Marks.

(** The group of digits takes the whole run in front of a text that does
    not start with a digit. *)
Lemma rmatch_digit_group_run (c : ascii) (ds t : string) (g : option string)
    (k : cont) (x : mres) :
  all_chars is_digit (String c ds) = true →
  match t with String d _ => is_digit d = false | EmptyString => True end →
  k t (Some (String c ds)) = Some x →
  rmatch (Group (plus true digit)) (String c ds +:+ t) g k = Some x.
Proof.
  intros Hds Ht Hk. cbn [all_chars] in Hds. apply andb_true_iff in Hds as [Hc Hds].
  unfold plus, digit. rewrite append_cons. cbn [rmatch]. rewrite Hc.
  apply (star_loop_greedy_run is_digit _ t); [exact Ht | | exact Hds | lia].
  change (String c (ds +:+ t)) with (String c ds +:+ t).
  rewrite consumed_app. exact Hk.
Qed.

Lemma contains_char_app (c : ascii) (a b : string) :
  contains (String c EmptyString) a = false →
  contains (String c EmptyString) b = false →
  contains (String c EmptyString) (a +:+ b) = false.
Proof.
  intros Ha Hb. induction a as [|d a IH]; [exact Hb|].
  rewrite append_cons. apply contains_char_cons in Ha as [Hd Ha].
  cbn [contains strip_prefix]. rewrite Hd. apply IH, Ha.
Qed.

Lemma contains_char_digits (c : ascii) (ds : string) :
  is_digit c = false → all_chars is_digit ds = true →
  contains (String c EmptyString) ds = false.
Proof.
  intros Hc. induction ds as [|d ds IH]; [reflexivity|].
  cbn [all_chars]. intros H. apply andb_true_iff in H as [Hd Hds].
  cbn [contains strip_prefix].
  destruct (Ascii.eqb_spec c d) as [<-|]; [congruence | apply IH, Hds].
Qed.

(** A pattern with a literal character somewhere needs the character. *)
Lemma re_search_wants_char (c : ascii) (r0 r1 : regex) (s : string) :
  contains (String c EmptyString) s = false →
  re_search (Seq r0 (Seq (chr c) r1)) s = None.
Proof.
  intros Hno. apply re_search_None. intros skipped t ->.
  destruct (match_here _ t) as [res|] eqn:E; [exfalso | reflexivity].
  unfold match_here in E. apply rmatch_seq_suffix in E as (p1 & s1 & g1 & -> & E).
  unfold chr in E. cbn [rmatch] in E. destruct s1 as [|d s1]; [discriminate|].
  destruct (Ascii.eqb_spec c d) as [<-|]; [|discriminate].
  rewrite <- append_assoc in Hno.
  change (String c s1) with (String c EmptyString +:+ s1) in Hno.
  rewrite contains_app in Hno. discriminate.
Qed.

End Marks.

(** X18. [_remove_text_formatting] takes the two asterisks off both sides
    of a number: from a non-empty run of digits between [**] and [**] the
    digits are left. *)
Theorem remove_text_formatting_bold_number :
  ∀ (c : ascii) (ds : string),
    all_chars is_digit (String c ds) = true →
    _remove_text_formatting ("**" +:+ String c ds +:+ "**") = String c ds.
Proof.
  intros c ds Hds. unfold _remove_text_formatting. cbv zeta. cbn [seq].
  assert (Hhash : contains "#" ("**" +:+ String c ds +:+ "**") = false).
  { apply (contains_char_app "#" "**"); [reflexivity|].
    apply contains_char_app; [|reflexivity].
    apply contains_char_digits; [reflexivity | exact Hds]. }
  rewrite (re_sub_None (Seq (chr "#") _)) by (apply re_search_chr_None, Hhash).
  rewrite (re_sub_None (Seq (Group _) (Seq (chr "#") _)))
    by (apply re_search_wants_char, Hhash).
  (* the opening mark *)
  assert (H3 : re_sub (Seq (lit "**") (Seq (Group (plus true digit)) Eps)) group_text
                 ("**" +:+ String c ds +:+ "**") = String c ds +:+ "**").
  { unfold re_sub.
    change ("**" +:+ String c ds +:+ "**")
      with (String "*" (String "*" (String c ds +:+ "**"))) at 2.
    cbn [sub_loop re_search].
    assert (Hm : match_here (Seq (lit "**") (Seq (Group (plus true digit)) Eps))
                   (String "*" (String "*" (String c ds +:+ "**")))
                 = Some ("**", Some (String c ds))).
    { unfold match_here.
      change (rmatch (Seq (lit "**") (Seq (Group (plus true digit)) Eps))
                (String "*" (String "*" (String c ds +:+ "**"))) None accept)
        with (rmatch (Group (plus true digit)) (String c ds +:+ "**") None
                (fun s g => rmatch Eps s g accept)).
      apply rmatch_digit_group_run; [exact Hds | reflexivity | reflexivity]. }
    rewrite Hm. cbn [group_text String.length drop_string].
    change (drop_string 0 (String "*" (String "*" (String c ds +:+ "**"))))
      with (drop_string (String.length EmptyString)
              (EmptyString +:+ String "*" (String "*" (String c ds +:+ "**")))).
    rewrite drop_string_app. unfold resume.
    replace (String.length "**" <?
             String.length (String "*" (String "*" (String c ds +:+ "**"))))%nat
      with true
      by (symmetry; apply Nat.ltb_lt; cbn [String.length];
          rewrite length_append; cbn [String.length]; lia).
    rewrite (sub_loop_fuel _ _ _ (S (String.length "**")))
      by (cbn [String.length]; rewrite ?length_append; cbn [String.length]; lia).
    rewrite !append_nil_l. reflexivity. }
  rewrite H3.
  (* the closing mark *)
  assert (H4 : re_sub (Seq (Group (plus true digit)) (Seq (lit "**") Eps)) group_text
                 (String c ds +:+ "**") = String c ds).
  { unfold re_sub. rewrite append_cons at 2. cbn [sub_loop re_search].
    assert (Hm : match_here (Seq (Group (plus true digit)) (Seq (lit "**") Eps))
                   (String c (ds +:+ "**"))
                 = Some (EmptyString, Some (String c ds))).
    { unfold match_here.
      change (rmatch (Seq (Group (plus true digit)) (Seq (lit "**") Eps))
                (String c (ds +:+ "**")) None accept)
        with (rmatch (Group (plus true digit)) (String c ds +:+ "**") None
                (fun s g => rmatch (Seq (lit "**") Eps) s g accept)).
      apply rmatch_digit_group_run; [exact Hds | reflexivity | reflexivity]. }
    rewrite Hm. cbn [group_text String.length].
    change (drop_string 0 (String c (ds +:+ "**")))
      with (drop_string (String.length EmptyString)
              (EmptyString +:+ String c (ds +:+ "**"))).
    rewrite drop_string_app. unfold resume. cbn [String.length Nat.ltb Nat.leb].
    cbn [sub_loop re_search]. rewrite append_nil_l.
    change (match_here _ EmptyString) with (@None mres).
    cbv iota. rewrite !append_nil_r. reflexivity. }
  rewrite H4.
  rewrite (re_sub_None (Seq (chr backslash) _))
    by (apply re_search_leading_None; [reflexivity | exact Hds]).
  rewrite (re_sub_None (Seq (Group _) (Seq (chr backslash) _)))
    by (apply re_search_trailing_None; [reflexivity | exact Hds]).
  reflexivity.
Qed.

(** ** Counting extraction followed by scoring, and a single boxed marker *)

(** X23. Scoring what counting extraction returned never raises; with [k]
    equal to 1 and a ground truth whose first value is [z], the verdict is
    true exactly when the extraction returned the list holding [z]. *)
Theorem score_count_eval_after_extraction :
  ∀ (correct_answer : list (string * Z)) (response : string),
    (∀ k v, extract_count_eval response k = Ok v →
            ∃ b, score_count_eval correct_answer v = Ok b)
    ∧ (∀ key z rest, correct_answer = (key, z) :: rest →
         ∃ v b, extract_count_eval response 1 = Ok v
                ∧ score_count_eval correct_answer v = Ok b
                ∧ (b = true ↔ v = VList [VInt z])).
Proof.
  intros m response. split.
  - intros k v Hv. apply extract_count_eval_list in Hv as (l & -> & _).
    unfold score_count_eval. destruct (py_truthy (VList l)); cbn [negb bind py_iter];
      eauto.
  - intros key z rest ->.
    destruct (extract_count_eval_one response) as [[_ ->]|(n & Hn & ->)].
    + exists (VList [VStr EmptyString]), false. repeat split; discriminate.
    + exists (VList [VInt n]), (n =? z). split; [reflexivity|]. split.
      * cbn. rewrite andb_true_r. reflexivity.
      * rewrite Z.eqb_eq. split; [intros ->; reflexivity | intros [= ->]; reflexivity].
Qed.

Section OneMarker.



End OneMarker.


(** ** The further properties at concrete inputs *)


Lemma extract_travel_eval_no_block_witness :
  extract_travel_eval literal_eval_sample "I would fly." = Ok (VList []).
Proof. apply extract_travel_eval_no_block. vm_compute. reflexivity. Defined.

Lemma extract_mathgap_eval_total_witness :
  ∃ v, extract_mathgap_eval "Forty-two." = Ok v ∧ v = VNone.
Proof.
  destruct (extract_mathgap_eval_total "Forty-two.") as (v & Hv & _ & Hnone).
  exists v. split; [exact Hv | apply Hnone; vm_compute; reflexivity].
Defined.

Lemma extract_logic_eval_letter_or_empty_witness :
  extract_logic_eval "I cannot tell." = VStr EmptyString.
Proof.
  apply (proj2 (extract_logic_eval_letter_or_empty "I cannot tell."));
    vm_compute; reflexivity.
Defined.

Lemma extract_logic_eval_answer_tag_first_witness :
  ∃ y pre' post',
    is_A_to_D y = true
    ∧ "boxed{B} <answer>C</answer> answer: A"
      = pre' +:+ "<answer>" +:+ String y ("</answer>" +:+ post')
    ∧ extract_logic_eval "boxed{B} <answer>C</answer> answer: A"
      = VStr (String y EmptyString).
Proof.
  apply (extract_logic_eval_answer_tag_first _ "boxed{B} " " answer: A" "C"%char);
    reflexivity.
Defined.

Lemma score_logic_eval_after_extraction_witness :
  ∃ b, score_logic_eval "c" (extract_logic_eval "Final answer: C.") = Ok b.
Proof.
  destruct (score_logic_eval_after_extraction "c" "Final answer: C.")
    as (b & Hb & _).
  exists b. exact Hb.
Defined.

Lemma extract_unpuzzle_eval_never_placeholder_witness :
  extract_unpuzzle_eval "I cannot tell." = EmptyString.
Proof.
  apply (proj2 (proj2 (extract_unpuzzle_eval_never_placeholder "I cannot tell.")));
    vm_compute; reflexivity.
Defined.

Lemma find_answers_last_pattern_dead_witness :
  re_search (seq [chr "/"; Eos; Group (plus false dot); chr "/"; Eos]) "/a/" = None
  ∧ re_findall (seq [chr "/"; Eos; Group (plus false dot); chr "/"; Eos]) "/a/" = [].
Proof. apply find_answers_last_pattern_dead. reflexivity. Defined.

Lemma extract_count_eval_shape_witness :
  ∃ l, VList [VInt 3; VInt 4] = VList l
       ∧ (l = [VStr EmptyString]
          ∨ (Z.of_nat (length l) = 2 ∧ Forall int_or_none l)).
Proof.
  apply (extract_count_eval_shape "The words appear [3, 4] times." 2).
  vm_compute. reflexivity.
Defined.


Lemma insert_quotes_in_tuples_without_parentheses_witness :
  _insert_quotes_in_tuples "[1, 2]" = "[1, 2]".
Proof.
  apply insert_quotes_in_tuples_without_parentheses. left. vm_compute. reflexivity.
Defined.



Lemma remove_text_formatting_bold_number_witness :
  _remove_text_formatting "**12**" = "12".
Proof.
  apply (remove_text_formatting_bold_number "1" "2"). reflexivity.
Defined.


Lemma score_unpuzzle_eval_spaces_and_case_witness :
  score_unpuzzle_eval "Paris" "Paris" = true.
Proof. exact (proj1 (score_unpuzzle_eval_spaces_and_case "Paris" "paris ")). Defined.


Lemma text_to_int_number_words_witness :
  0 ≤ 5 ≤ 20 ∧ ∀ s', _text_to_int s' = VInt 5 → s' = "five".
Proof.
  apply (proj1 (proj2 (text_to_int_number_words "five"))). reflexivity.
Defined.

Lemma score_count_eval_after_extraction_witness :
  ∃ v b, extract_count_eval "It appears 12 times." 1 = Ok v
         ∧ score_count_eval [("a", 12)] v = Ok b
         ∧ (b = true ↔ v = VList [VInt 12]).
Proof.
  apply (proj2 (score_count_eval_after_extraction [("a", 12)]
                  "It appears 12 times.") "a" 12 []).
  reflexivity.
Defined.

